(** * German oral history processor: the text reformatter

    A shallow embedding of [src/reformat_text.py]: the cost tracker, the
    sentence-aligned chunker, the per-chunk unit of work, the dispatcher that
    collects the results of the worker pool, and the aggregation step.

    Python values are modelled as follows.
    - [str] is a sequence of Unicode code points: [pystr := list N].
      [len] counts code points, as Python does.
    - [int] is unbounded: [Z].
    - a finite [float] is the rational it denotes ([Q], kept reduced); every
      arithmetic operation rounds to the nearest binary64 value, ties to
      even.  Infinities, NaN, the sign of zero and subnormal numbers are
      outside the model.
    - [print] calls do not change what the functions return and are left
      out, except where printing can raise on the data at hand:
      [split_into_contextual_chunks_run] models the chunker with its two
      [print] calls. *)

From Stdlib Require Import Strings.String Strings.Ascii Numbers.DecimalString.
From Stdlib Require Import List ZArith NArith QArith Qround Qabs Qcanon.
From Stdlib Require Import Bool Lia Lqa.
From Stdlib Require Import Sorting.Permutation.
Import ListNotations.

Local Open Scope Z_scope.

(** ** Python strings *)

Module Py.

Definition char := N.
Definition pystr := list char.

(** A literal of the source, as code points (the literals used here are
    ASCII). *)
Definition of_string (s : string) : pystr :=
  map N_of_ascii (list_ascii_of_string s).

Definition LF : char := 10%N.
Definition SPACE : char := 32%N.
Definition DOT : char := 46%N.

Definition len (s : pystr) : Z := Z.of_nat (length s).

(** Truth value of a string: non-empty. *)
Definition truthy (s : pystr) : bool :=
  match s with [] => false | _ :: _ => true end.

(** [str.isspace] on one code point: the Unicode white space of CPython. *)
Definition isspace (c : char) : bool :=
  (((9 <=? c) && (c <=? 13)) || ((28 <=? c) && (c <=? 32))
   || (c =? 133) || (c =? 160) || (c =? 5760)
   || ((8192 <=? c) && (c <=? 8202))
   || (c =? 8232) || (c =? 8233) || (c =? 8239) || (c =? 8287)
   || (c =? 12288))%N.

Fixpoint lstrip (s : pystr) : pystr :=
  match s with
  | [] => []
  | c :: t => if isspace c then lstrip t else s
  end.

Definition rstrip (s : pystr) : pystr := rev (lstrip (rev s)).

(** [s.strip()] *)
Definition strip (s : pystr) : pystr := lstrip (rstrip s).

(** [s.replace(a, b)] for one-character [a] and [b]. *)
Definition replace (a b : char) (s : pystr) : pystr :=
  map (fun c => if (c =? a)%N then b else c) s.

Definition cons_head (c : char) (l : list pystr) : list pystr :=
  match l with
  | [] => [[c]]
  | h :: r => (c :: h) :: r
  end.

(** [s.split(sep)] for a two-character separator [sep = a b]: the
    occurrences are cut from left to right, without overlap; the result is
    never empty. *)
Fixpoint split2 (a b : char) (s : pystr) : list pystr :=
  match s with
  | [] => [[]]
  | c :: t =>
      match t with
      | d :: t' =>
          if ((c =? a) && (d =? b))%N then [] :: split2 a b t'
          else cons_head c (split2 a b t)
      | [] => [[c]]
      end
  end.

Fixpoint startswith (p s : pystr) : bool :=
  match p, s with
  | [], _ => true
  | _ :: _, [] => false
  | x :: p', y :: s' => (x =? y)%N && startswith p' s'
  end.

Definition endswith (p s : pystr) : bool := startswith (rev p) (rev s).

(** [sub in s] *)
Fixpoint contains (sub s : pystr) : bool :=
  startswith sub s
  || match s with
     | [] => false
     | _ :: t => contains sub t
     end.

(** [s.count(sub)] for a non-empty [sub]: occurrences from left to right,
    without overlap.  [skip] is the number of characters of the last
    occurrence still to pass. *)
Fixpoint count_from (sub s : pystr) (skip : nat) : nat :=
  match s with
  | [] => 0%nat
  | _ :: t =>
      match skip with
      | S k => count_from sub t k
      | O =>
          if startswith sub s
          then S (count_from sub t (length sub - 1))
          else count_from sub t 0
      end
  end.

Definition count (sub s : pystr) : nat := count_from sub s 0.

(** [sep.join(l)] *)
Fixpoint join (sep : pystr) (l : list pystr) : pystr :=
  match l with
  | [] => []
  | x :: rest =>
      match rest with
      | [] => x
      | _ :: _ => x ++ sep ++ join sep rest
      end
  end.

(** [str(n)] for an integer. *)
Definition str_of_Z (n : Z) : pystr :=
  of_string (NilZero.string_of_int (Z.to_int n)).

End Py.

Import Py.

(** ** Exceptions *)

(** The exceptions an [except Exception] clause catches. *)
Inductive exn :=
| IndexError
| AttributeError
| OverflowError
| UnicodeEncodeError
| ServiceError (msg : pystr).

Inductive outcome (A : Type) :=
| Returned (a : A)
| Raised (e : exn).
Arguments Returned {A} a.
Arguments Raised {A} e.

(** ** Python floats *)

Module PyFloat.

Definition float := Q.













Definition MINUS : char := 45%N.
Definition COMMA : char := 44%N.




Fixpoint group3 (rev_digits : pystr) (k : nat) : pystr :=
  match rev_digits with
  | [] => []
  | d :: t =>
      match k with
      | O => COMMA :: d :: group3 t 2
      | S k' => d :: group3 t k'
      end
  end.

(** [format(n, ',')]: groups of three digits. *)
Definition format_comma (n : Z) : pystr :=
  (if n <? 0 then [MINUS] else [])
  ++ rev (group3 (rev (str_of_Z (Z.abs n))) 3).

End PyFloat.

Import PyFloat.

(** ** The cost tracker *)

Record Usage := {
  total_tokens : Z;
  prompt_tokens : Z;
  completion_tokens : Z
}.

(** A reply of the remote service, as far as the code reads it:
    [usage] is [None] when the object has no such attribute;
    [choices] holds [message.content] of each choice, [None] for a
    message without text. *)
Record Response := {
  usage : option Usage;
  choices : list (option pystr)
}.

Record CostTracker := {
  start_time : float;
  total_tokens_ : Z;
  total_prompt_tokens : Z;
  total_completion_tokens : Z
}.

(** [CostTracker()], created when the clock reads [now]. *)
Definition CostTracker_init (now : float) : CostTracker :=
  {| start_time := now;
     total_tokens_ := 0;
     total_prompt_tokens := 0;
     total_completion_tokens := 0 |}.

Definition add_usage (self : CostTracker) (response : Response) : CostTracker :=
  match usage response with
  | Some u =>
      {| start_time := start_time self;
         total_tokens_ := total_tokens_ self + total_tokens u;
         total_prompt_tokens := total_prompt_tokens self + prompt_tokens u;
         total_completion_tokens :=
           total_completion_tokens self + completion_tokens u |}
  | None => self
  end.





(** ** The chunker *)

Definition dot_space : pystr := of_string ". ".

(** One turn of the loop of [split_into_contextual_chunks]; the state is
    [(chunks, current_chunk)]. *)
Definition chunk_step (max_chunk_size : Z)
    (st : list pystr * pystr) (sentence : pystr) : list pystr * pystr :=
  let (chunks, current_chunk) := st in
  if (len current_chunk + len sentence >? max_chunk_size)
     && truthy current_chunk
  then (chunks ++ [strip current_chunk], sentence ++ dot_space)
  else (chunks, current_chunk ++ sentence ++ dot_space).

Definition sentences_of (text : pystr) : list pystr :=
  split2 DOT SPACE (replace LF SPACE text).

Definition flush (st : list pystr * pystr) : list pystr :=
  let (chunks, current_chunk) := st in
  if truthy current_chunk then chunks ++ [strip current_chunk] else chunks.

Definition split_into_contextual_chunks
    (text : pystr) (max_chunk_size : Z) : list pystr :=
  let sentences := sentences_of text in
  let chunks := flush (fold_left (chunk_step max_chunk_size) sentences ([], [])) in
  filter (fun chunk => len chunk >? 50) chunks.

Definition default_max_chunk_size : Z := 400.

(** [print(s)]: [stdout s] tells whether the standard output can encode
    [s]; when it cannot, [print] raises [UnicodeEncodeError]. *)
Definition print (stdout : pystr -> bool) (s : pystr) : outcome unit :=
  if stdout s then Returned tt else Raised UnicodeEncodeError.

Definition is_surrogate (c : char) : bool :=
  ((55296 <=? c) && (c <=? 57343))%N.

(** A standard output in UTF-8 with the strict error handler, which is
    the default: everything but a lone surrogate is encoded. *)
Definition utf8_strict (s : pystr) : bool :=
  forallb (fun c => negb (is_surrogate c)) s.

(** [split_into_contextual_chunks] with its two [print] calls: the number
    of chunks, and the first 100 characters of the first chunk when there
    is one.  [split_into_contextual_chunks] above is the value returned. *)
Definition split_into_contextual_chunks_run
    (stdout : pystr -> bool) (text : pystr) (max_chunk_size : Z)
    : outcome (list pystr) :=
  let chunks := split_into_contextual_chunks text max_chunk_size in
  match print stdout (of_string "Created "
                      ++ str_of_Z (Z.of_nat (List.length chunks))
                      ++ of_string " chunks") with
  | Raised e => Raised e
  | Returned _ =>
      match chunks with
      | [] => Returned chunks
      | first :: _ =>
          match print stdout (of_string "First chunk sample: "
                              ++ firstn 100 first ++ of_string "...") with
          | Raised e => Raised e
          | Returned _ => Returned chunks
          end
      end
  end.

(** ** The unit of work *)

(** Code that may raise and that updates the global [cost_tracker]. *)
Definition M (A : Type) : Type := CostTracker -> outcome A * CostTracker.

Definition ret {A} (a : A) : M A := fun t => (Returned a, t).
Definition raise {A} (e : exn) : M A := fun t => (Raised e, t).
Definition bind {A B} (m : M A) (k : A -> M B) : M B :=
  fun t =>
    match m t with
    | (Returned a, t') => k a t'
    | (Raised e, t') => (Raised e, t')
    end.
Definition lift {A} (o : outcome A) : M A := fun t => (o, t).
(** [try: m except Exception as e: h e]; what [m] did to the tracker before
    it raised stays done. *)
Definition try_except {A} (m : M A) (h : exn -> M A) : M A :=
  fun t =>
    match m t with
    | (Returned a, t') => (Returned a, t')
    | (Raised e, t') => h e t'
    end.

Notation "x <- m ;; k" := (bind m (fun x => k))
  (at level 61, m at next level, right associativity).

(** The remote service: its reply to the request built for chunk number
    [n] with text [chunk] (model, instructions, temperature and token bound
    are fixed by the code), or the exception the call raises. *)
Definition Client := nat -> pystr -> outcome Response.

(** [cost_tracker.add_usage(response)] *)
Definition track (response : Response) : M unit :=
  fun t => (Returned tt, add_usage t response).

(** [response.choices[0]] *)
Definition first_choice (response : Response) : M (option pystr) :=
  match choices response with
  | c :: _ => ret c
  | [] => raise IndexError
  end.

(** [message.content.strip()] *)
Definition content_strip (content : option pystr) : M pystr :=
  match content with
  | Some s => ret (strip s)
  | None => raise AttributeError
  end.

Definition German : pystr := of_string "German:".
Definition English : pystr := of_string "English:".

Definition error_tag (chunk_number : nat) : pystr :=
  of_string "[Error processing chunk "
  ++ str_of_Z (Z.of_nat chunk_number) ++ of_string "]" ++ [LF].

Definition process_chunk_body
    (chunk : pystr) (client : Client) (chunk_number : nat) : M pystr :=
  response <- lift (client chunk_number chunk) ;;
  _ <- track response ;;
  choice <- first_choice response ;;
  result <- content_strip choice ;;
  if negb (contains German result) || negb (contains English result)
  then ret (error_tag chunk_number ++ result)
  else ret result.

Definition process_chunk
    (chunk : pystr) (client : Client) (chunk_number : nat) : M pystr :=
  try_except (process_chunk_body chunk client chunk_number)
             (fun _ => ret []).

(** ** The dispatcher *)

(** [enumerate(chunks, 1)] *)
Definition enumerate1 (chunks : list pystr) : list (nat * pystr) :=
  combine (seq 1 (List.length chunks)) chunks.

(** [future_to_chunk]: the chunk submitted under number [i]. *)
Definition chunk_at (chunks : list pystr) (i : nat) : option pystr :=
  match i with
  | O => None
  | S k => nth_error chunks k
  end.

(** [as_completed(future_to_chunk)]: the submitted work in the order in
    which it completes.  [completion] lists the chunk numbers in that
    order; the pool decides it, and it is a permutation of the numbers
    submitted. *)
Definition as_completed
    (chunks : list pystr) (completion : list nat) : list (nat * pystr) :=
  flat_map (fun i => match chunk_at chunks i with
                     | Some chunk => [(i, chunk)]
                     | None => []
                     end) completion.

(** One turn of the collecting loop: [future.result()] returns what the
    worker returned or raises what it raised. *)
Definition collect_step (client : Client)
    (st : list pystr * CostTracker) (future : nat * pystr)
    : list pystr * CostTracker :=
  let (results, t) := st in
  let (chunk_num, chunk) := future in
  match process_chunk chunk client chunk_num t with
  | (Returned result, t') => (results ++ [result], t')
  | (Raised _, t') => (results ++ [[]], t')
  end.

(** The tracker is passed from one unit of work to the next in completion
    order; the texts returned do not depend on it. *)
Definition process_chunks_parallel
    (client : Client) (chunks : list pystr) (completion : list nat)
    (t : CostTracker) : list pystr * CostTracker :=
  fold_left (collect_step client) (as_completed chunks completion) ([], t).

(** ** Aggregation *)

Definition separator : pystr := [LF; LF; MINUS; MINUS; MINUS; LF; LF].

(** ["\n\n---\n\n".join(r for r in results if r)] *)
Definition aggregate (results : list pystr) : pystr :=
  join separator (filter truthy results).

(** [reformat_text] between reading the input file and writing the output
    file.  The text is decoded from a UTF-8 file and so holds no lone
    surrogate: the chunker's [print] calls do not raise on it. *)
Definition reformat_text
    (client : Client) (text : pystr) (completion : list nat)
    (t : CostTracker) : pystr * CostTracker :=
  let chunks := split_into_contextual_chunks text default_max_chunk_size in
  let (results, t') := process_chunks_parallel client chunks completion t in
  (aggregate results, t').

(** ** Invariant of the chunker's loop *)

(** What a closed chunk looks like: the trimmed concatenation [x ++ ". "],
    where [x] is a single fragment or fits within the maximum size. *)
Definition chunk_shape (max_chunk_size : Z) (sentences : list pystr)
    (c : pystr) : Prop :=
  exists x, c = strip (x ++ dot_space)
            /\ (len x <= max_chunk_size \/ In x sentences).

Definition buffer_shape (max_chunk_size : Z) (sentences : list pystr)
    (cur : pystr) : Prop :=
  cur = [] \/
  exists x, cur = x ++ dot_space
            /\ (len x <= max_chunk_size \/ In x sentences).

Definition loop_inv (max_chunk_size : Z) (sentences : list pystr)
    (st : list pystr * pystr) : Prop :=
  Forall (chunk_shape max_chunk_size sentences) (fst st)
  /\ buffer_shape max_chunk_size sentences (snd st).

(** ** Invariant of the cost tracker *)

Definition tracker_inv (t : CostTracker) : Prop :=
  total_tokens_ t = total_prompt_tokens t + total_completion_tokens t.

(** A reply whose usage record, when it has one, adds up. *)
Definition usage_consistent (r : Response) : Prop :=
  match usage r with
  | Some u => total_tokens u = prompt_tokens u + completion_tokens u
  | None => True
  end.

(** ** What a unit of work returns *)

(** The text [process_chunk] returns for chunk number [n], read off the
    outcome of the remote call. *)
Definition reply_text (n : nat) (o : outcome Response) : pystr :=
  match o with
  | Raised _ => []
  | Returned response =>
      match choices response with
      | Some content :: _ =>
          let result := strip content in
          if negb (contains German result) || negb (contains English result)
          then error_tag n ++ result
          else result
      | _ => []
      end
  end.

Definition future_text (client : Client) (future : nat * pystr) : pystr :=
  reply_text (fst future) (client (fst future) (snd future)).

(** ** Concrete inputs *)

(** Two chunks, and a service that answers each with a well-formed
    translation of its own. *)
Definition chunk_one : pystr := of_string "Guten Tag.".
Definition chunk_two : pystr := of_string "Auf Wiedersehen.".
Definition reply_one : pystr :=
  of_string "German: Guten Tag." ++ [LF] ++ of_string "English: Good day.".
Definition reply_two : pystr :=
  of_string "German: Auf Wiedersehen." ++ [LF] ++ of_string "English: Goodbye.".
Definition translating_client : Client :=
  fun n _ =>
    Returned {| usage := Some {| total_tokens := 15; prompt_tokens := 10;
                                 completion_tokens := 5 |};
                choices := [Some (if Nat.eqb n 1 then reply_one else reply_two)] |}.

(** The horizontal rule inside the separator. *)
Definition dashes : pystr := [MINUS; MINUS; MINUS].

(** The characters of all the results together. *)
Definition total_len (results : list pystr) : Z :=
  fold_right (fun r acc => len r + acc) 0 results.

(** A well-formed reply in which the service drew a rule of its own between
    two blank lines. *)
Definition reply_with_rule : pystr :=
  of_string "German: Ja." ++ separator ++ of_string "English: Yes.".

(** A service whose reply has neither marker. *)
Definition unformatted_reply : pystr := of_string " Good day. ".
Definition plain_client : Client :=
  fun _ _ => Returned {| usage := None; choices := [Some unformatted_reply] |}.

(** The same service, except that the call for chunk 1 raises. *)
Definition failing_client : Client :=
  fun n chunk =>
    if Nat.eqb n 1 then Raised (ServiceError (of_string "timed out"))
    else translating_client n chunk.

(** A reply that carries only a usage record. *)
Definition usage_reply (prompt completion total : Z) : Response :=
  {| usage := Some {| total_tokens := total;
                      prompt_tokens := prompt;
                      completion_tokens := completion |};
     choices := [] |}.

Definition usage_10_5_15 : Response := usage_reply 10 5 15.
Definition usage_20_10_30 : Response := usage_reply 20 10 30.


(** ["a" * 199 + ". " + "b" * 199] *)
Definition two_sentences : pystr :=
  repeat 97%N 199 ++ dot_space ++ repeat 98%N 199.

(** ** Measures and invariants for the further properties *)

(** Every fragment followed by the delimiter the loop restores. *)
Definition with_delimiters (fragments : list pystr) : pystr :=
  flat_map (fun s => s ++ dot_space) fragments.

(** The buffer and the closed chunks never outgrow the fragments consumed
    so far, each counted with its delimiter: [budget] characters. *)
Definition budget_inv (budget : Z) (st : list pystr * pystr) : Prop :=
  Forall (fun c => len c + 1 <= budget) (fst st)
  /\ (snd st = [] \/ exists x, snd st = x ++ dot_space /\ len x + 2 <= budget).

(** The characters of the buffer and of the closed chunks all satisfy [P]. *)
Definition chars_inv (P : char -> Prop) (st : list pystr * pystr) : Prop :=
  Forall (Forall P) (fst st) /\ Forall P (snd st).

(** A marker that neither starts nor ends with white space. *)
Definition solid (m : pystr) : Prop :=
  (exists a m', m = a :: m' /\ isspace a = false)
  /\ (exists m' z, m = m' ++ [z] /\ isspace z = false).

(** The replies whose usage a unit of work records: the reply of the
    remote call when it returns one. *)
Definition future_usage (client : Client) (future : nat * pystr)
    : list Response :=
  match client (fst future) (snd future) with
  | Returned response => [response]
  | Raised _ => []
  end.

(** A run of consecutive fragments, at least one. *)
Definition segment_of (sentences seg : list pystr) : Prop :=
  seg <> [] /\ exists before after, sentences = before ++ seg ++ after.

(** Every closed chunk is a trimmed run of consecutive fragments, and the
    buffer holds the run that ends with the last fragment consumed;
    [consumed] and [remaining] are the fragments before and after the
    loop's position. *)
Definition run_inv (consumed remaining : list pystr)
    (st : list pystr * pystr) : Prop :=
  Forall (fun c => exists seg, segment_of (consumed ++ remaining) seg
                               /\ c = strip (with_delimiters seg)) (fst st)
  /\ (snd st = [] \/
      exists before seg, seg <> [] /\ consumed = before ++ seg
                         /\ snd st = with_delimiters seg).

(** A decimal digit. *)
Definition is_digit (c : char) : bool := ((48 <=? c) && (c <=? 57))%N.

Definition not_comma (c : char) : bool := negb (c =? COMMA)%N.


(** ** The elapsed time, read exactly *)











(** A text that begins with the lone surrogate U+D800. *)
Definition text_with_surrogate : pystr := 55296%N :: repeat 97%N 60.

(** * Properties of the chunker *)

Lemma len_app (a b : pystr) : len (a ++ b) = len a + len b.
Proof. unfold len. rewrite length_app. lia. Qed.

Lemma len_nonneg (a : pystr) : 0 <= len a.
Proof. unfold len. lia. Qed.

Lemma lstrip_suffix (s : pystr) : exists pre, s = pre ++ lstrip s.
Proof.
  induction s as [|c t [pre IH]]; simpl.
  - now exists [].
  - destruct (isspace c).
    + exists (c :: pre). simpl. now f_equal.
    + now exists [].
Qed.

Lemma lstrip_len (s : pystr) : len (lstrip s) <= len s.
Proof.
  destruct (lstrip_suffix s) as [pre E].
  rewrite E at 2. rewrite len_app. pose proof (len_nonneg pre). lia.
Qed.

Lemma rstrip_dot_space (x : pystr) : rstrip (x ++ dot_space) = x ++ [DOT].
Proof.
  unfold rstrip, dot_space. rewrite rev_app_distr. simpl.
  now rewrite rev_involutive.
Qed.

Lemma lstrip_keeps_dot (x : pystr) : exists y, lstrip (x ++ [DOT]) = y ++ [DOT].
Proof.
  induction x as [|c t IH]; simpl.
  - now exists [].
  - destruct (isspace c).
    + exact IH.
    + now exists (c :: t).
Qed.

Lemma strip_dot_space (x : pystr) : exists y, strip (x ++ dot_space) = y ++ [DOT].
Proof. unfold strip. rewrite rstrip_dot_space. apply lstrip_keeps_dot. Qed.

Lemma strip_dot_space_len (x : pystr) : len (strip (x ++ dot_space)) <= len x + 1.
Proof.
  unfold strip. rewrite rstrip_dot_space.
  pose proof (lstrip_len (x ++ [DOT])) as H. rewrite len_app in H.
  change (len [DOT]) with 1 in H. exact H.
Qed.

Lemma endswith_dot (y : pystr) : endswith [DOT] (y ++ [DOT]) = true.
Proof. unfold endswith. rewrite rev_app_distr. reflexivity. Qed.

Section Chunker.

Variable max_chunk_size : Z.
Variable sentences : list pystr.

Local Abbreviation chunk_shape := (chunk_shape max_chunk_size sentences).
Local Abbreviation buffer_shape := (buffer_shape max_chunk_size sentences).
Local Abbreviation loop_inv := (loop_inv max_chunk_size sentences).

Lemma buffer_closed (cur : pystr) :
  buffer_shape cur -> truthy cur = true -> chunk_shape (strip cur).
Proof.
  intros [->|(x & -> & Hx)] Ht; [discriminate|].
  now exists x.
Qed.

Lemma chunk_step_inv st sentence :
  In sentence sentences -> loop_inv st ->
  loop_inv (chunk_step max_chunk_size st sentence).
Proof.
  intros Hin [Hc Hb]. destruct st as [chunks cur]. simpl in Hc, Hb.
  unfold chunk_step.
  destruct (len cur + len sentence >? max_chunk_size) eqn:Hgt;
    destruct (truthy cur) eqn:Ht; simpl; split; simpl; trivial.
  - apply Forall_app. split; [exact Hc|].
    constructor; [|constructor]. now apply buffer_closed.
  - right. exists sentence. auto.
  - destruct cur; [|discriminate]. right. exists sentence. auto.
  - destruct Hb as [->|(x & -> & _)]; [discriminate|].
    right. exists ((x ++ dot_space) ++ sentence). split.
    + now rewrite <- !app_assoc.
    + left. rewrite len_app. rewrite Z.gtb_ltb in Hgt.
      apply Z.ltb_ge in Hgt. exact Hgt.
  - destruct cur; [|discriminate]. right. exists sentence. auto.
Qed.

Lemma loop_inv_fold l st :
  incl l sentences -> loop_inv st ->
  loop_inv (fold_left (chunk_step max_chunk_size) l st).
Proof.
  revert st. induction l as [|s l IH]; intros st Hl Hst; simpl; [exact Hst|].
  apply IH.
  - intros y Hy. apply Hl. now right.
  - apply chunk_step_inv; [apply Hl; now left | exact Hst].
Qed.

Lemma flush_shape st : loop_inv st -> Forall chunk_shape (flush st).
Proof.
  intros [Hc Hb]. destruct st as [chunks cur]. simpl in *.
  destruct (truthy cur) eqn:Ht; [|exact Hc].
  apply Forall_app. split; [exact Hc|].
  constructor; [|constructor]. now apply buffer_closed.
Qed.

End Chunker.

Lemma chunks_shape (text : pystr) (max_chunk_size : Z) :
  Forall (chunk_shape max_chunk_size (sentences_of text))
         (split_into_contextual_chunks text max_chunk_size).
Proof.
  unfold split_into_contextual_chunks.
  apply Forall_forall. intros c Hc. apply filter_In in Hc as [Hc _].
  revert c Hc. apply Forall_forall. apply flush_shape.
  apply loop_inv_fold; [apply incl_refl|].
  split; simpl; [constructor | now left].
Qed.

(** C9: every chunk returned by [split_into_contextual_chunks] ends with
    the character ['.']: each fragment is put back with [". "], the final
    one too, and trimming takes only the space after the last period. *)
Theorem chunks_end_with_dot (text : pystr) (max_chunk_size : Z) :
  Forall (fun chunk =>
            endswith (of_string ".") chunk = true
            /\ exists x, chunk = strip (x ++ of_string ". ")
                         /\ rstrip (x ++ of_string ". ") = x ++ of_string ".")
         (split_into_contextual_chunks text max_chunk_size).
Proof.
  eapply Forall_impl; [|apply chunks_shape].
  intros c (x & -> & _). split.
  - destruct (strip_dot_space x) as [y ->]. apply endswith_dot.
  - exists x. split; [reflexivity|]. apply rstrip_dot_space.
Qed.

(** The size check of the loop leaves the restored delimiter out of the
    count: a chunk is at most one character over the maximum size, unless
    it is a single fragment that is itself over the maximum. *)
Lemma chunk_length_slack (text : pystr) (max_chunk_size : Z) :
  Forall (fun chunk =>
            len chunk <= max_chunk_size + 1
            \/ exists f, In f (sentences_of text)
                         /\ max_chunk_size < len f
                         /\ chunk = strip (f ++ dot_space))
         (split_into_contextual_chunks text max_chunk_size).
Proof.
  eapply Forall_impl; [|apply chunks_shape].
  intros c (x & -> & Hx).
  pose proof (strip_dot_space_len x) as Hl.
  destruct (Z_le_gt_dec (len x) max_chunk_size) as [Hle|Hgt]; [left; lia|].
  destruct Hx as [Hx|Hx]; [lia|].
  right. exists x. repeat split; [exact Hx | lia].
Qed.

(** C2, at ["a" * 199 + ". " + "b" * 199] with the default maximum of 400:
    both fragments are 199 characters long, and the only chunk holds both
    and is 401 characters long. *)
Theorem two_sentences_chunk_over_max :
  sentences_of two_sentences = [repeat 97%N 199; repeat 98%N 199]
  /\ split_into_contextual_chunks two_sentences default_max_chunk_size
     = [repeat 97%N 199 ++ dot_space ++ repeat 98%N 199 ++ of_string "."]
  /\ len (repeat 97%N 199 ++ dot_space ++ repeat 98%N 199 ++ of_string ".")
     = 401.
Proof. repeat split; vm_compute; reflexivity. Qed.

(** * Properties of the cost tracker *)

Lemma add_usage_comm (t : CostTracker) (r1 r2 : Response) :
  add_usage (add_usage t r1) r2 = add_usage (add_usage t r2) r1.
Proof.
  unfold add_usage.
  destruct (usage r1) as [u1|], (usage r2) as [u2|]; simpl; trivial.
  f_equal; lia.
Qed.

Lemma add_usage_fold_permutation (l1 l2 : list Response) :
  Permutation l1 l2 ->
  forall t, fold_left add_usage l1 t = fold_left add_usage l2 t.
Proof.
  induction 1 as [|r l1 l2 _ IH|r1 r2 l|l1 l2 l3 _ IH1 _ IH2]; intros t; simpl.
  - reflexivity.
  - apply IH.
  - now rewrite add_usage_comm.
  - now rewrite IH1.
Qed.

(** C7: accumulation in the cost tracker does not depend on the order of
    recording: two replies commute, any rearrangement of a sequence of
    replies gives the same totals, and recording {prompt 10, completion 5,
    total 15} and {prompt 20, completion 10, total 30} gives {prompt 30,
    completion 15, total 45} in either order. *)
Theorem add_usage_order_independent :
  (forall t r1 r2,
      add_usage (add_usage t r1) r2 = add_usage (add_usage t r2) r1)
  /\ (forall t l1 l2,
         Permutation l1 l2 ->
         fold_left add_usage l1 t = fold_left add_usage l2 t)
  /\ (forall now,
         add_usage (add_usage (CostTracker_init now) usage_10_5_15)
                   usage_20_10_30
         = {| start_time := now; total_tokens_ := 45;
              total_prompt_tokens := 30; total_completion_tokens := 15 |}
         /\ add_usage (add_usage (CostTracker_init now) usage_20_10_30)
                      usage_10_5_15
            = {| start_time := now; total_tokens_ := 45;
                 total_prompt_tokens := 30; total_completion_tokens := 15 |}).
Proof.
  split; [exact add_usage_comm|]. split.
  - intros t l1 l2 H. now apply add_usage_fold_permutation.
  - intros now. split; reflexivity.
Qed.

Lemma add_usage_order_independent_witness :
  Permutation [usage_10_5_15; usage_20_10_30] [usage_20_10_30; usage_10_5_15]
  /\ fold_left add_usage [usage_10_5_15; usage_20_10_30] (CostTracker_init 0%Q)
     = fold_left add_usage [usage_20_10_30; usage_10_5_15] (CostTracker_init 0%Q).
Proof.
  split.
  - apply perm_swap.
  - apply (proj1 (proj2 add_usage_order_independent)). apply perm_swap.
Defined.

(** C10: [total_tokens = total_prompt_tokens + total_completion_tokens]
    holds for a new tracker, and [add_usage] keeps it when the usage record
    of the reply itself adds up. *)
Theorem tracker_inv_preserved :
  (forall now, tracker_inv (CostTracker_init now))
  /\ (forall t r,
         tracker_inv t -> usage_consistent r -> tracker_inv (add_usage t r)).
Proof.
  split.
  - intros now. reflexivity.
  - intros t r Ht Hr. unfold tracker_inv, usage_consistent, add_usage in *.
    destruct (usage r) as [u|]; simpl; lia.
Qed.

Lemma tracker_inv_preserved_witness :
  tracker_inv (CostTracker_init 0%Q)
  /\ usage_consistent usage_10_5_15
  /\ tracker_inv (add_usage (CostTracker_init 0%Q) usage_10_5_15).
Proof.
  split; [reflexivity|]. split; [reflexivity|].
  apply (proj2 tracker_inv_preserved); reflexivity.
Defined.

(** * Properties of the unit of work and of the dispatcher *)

Section Dispatcher.

Variable client : Client.

(** [process_chunk] always returns, and its text does not depend on the
    tracker. *)
Lemma process_chunk_fst (chunk : pystr) (n : nat) (t : CostTracker) :
  fst (process_chunk chunk client n t) = Returned (reply_text n (client n chunk)).
Proof.
  unfold process_chunk, try_except, process_chunk_body, bind, lift, track,
    first_choice, content_strip, reply_text.
  destruct (client n chunk) as [response|e]; simpl; [|reflexivity].
  destruct (choices response) as [|[content|] rest]; simpl; try reflexivity.
  destruct (negb (contains German (strip content))
            || negb (contains English (strip content))); reflexivity.
Qed.

Lemma collect_step_fst (st : list pystr * CostTracker) (future : nat * pystr) :
  fst (collect_step client st future) = fst st ++ [future_text client future].
Proof.
  destruct st as [results t], future as [i chunk]. unfold collect_step.
  pose proof (process_chunk_fst chunk i t) as H.
  destruct (process_chunk chunk client i t) as [[r|e] t']; simpl in *.
  - now inversion H.
  - discriminate.
Qed.

Lemma collect_fold_fst (l : list (nat * pystr)) (st : list pystr * CostTracker) :
  fst (fold_left (collect_step client) l st)
  = fst st ++ map (future_text client) l.
Proof.
  revert st. induction l as [|f l IH]; intros st; simpl.
  - now rewrite app_nil_r.
  - rewrite IH, collect_step_fst, <- app_assoc. reflexivity.
Qed.

(** The results, in the order of completion. *)
Lemma process_chunks_parallel_fst chunks completion t :
  fst (process_chunks_parallel client chunks completion t)
  = map (future_text client) (as_completed chunks completion).
Proof. unfold process_chunks_parallel. now rewrite collect_fold_fst. Qed.

End Dispatcher.



Lemma chunk_at_Some (chunks : list pystr) (i : nat) :
  In i (seq 1 (List.length chunks)) -> exists chunk, chunk_at chunks i = Some chunk.
Proof.
  intros H. apply in_seq in H. destruct i as [|k]; [lia|]. simpl.
  destruct (nth_error chunks k) eqn:E; [eauto|].
  apply nth_error_None in E. lia.
Qed.

Lemma chunk_at_in_seq (chunks : list pystr) (i : nat) (chunk : pystr) :
  chunk_at chunks i = Some chunk -> In i (seq 1 (List.length chunks)).
Proof.
  intros H. destruct i as [|k]; [discriminate|]. simpl in H.
  apply in_seq. assert (k < List.length chunks)%nat; [|lia].
  apply nth_error_Some. congruence.
Qed.

(** When every number of [completion] was submitted, each of them yields
    one future. *)
Lemma as_completed_map (chunks : list pystr) (completion : list nat) :
  Forall (fun i => In i (seq 1 (List.length chunks))) completion ->
  List.length (as_completed chunks completion) = List.length completion
  /\ forall p i chunk,
       nth_error completion p = Some i ->
       chunk_at chunks i = Some chunk ->
       nth_error (as_completed chunks completion) p = Some (i, chunk).
Proof.
  induction 1 as [|i l Hi _ [IHlen IHnth]]; simpl.
  - split; [reflexivity|]. intros [|p]; discriminate.
  - destruct (chunk_at_Some _ _ Hi) as [c Hc]. rewrite Hc. simpl. split.
    + now rewrite IHlen.
    + intros [|p] j chunk Hp Hj; simpl in *.
      * inversion Hp; subst. congruence.
      * now apply IHnth.
Qed.


(** When the chunks complete in the order of submission, the results are
    in chunk order. *)
Lemma results_in_order_when_completed_in_order
    (client : Client) (chunks : list pystr) (t : CostTracker) (p : nat)
    (chunk : pystr) :
  nth_error chunks p = Some chunk ->
  nth_error (fst (process_chunks_parallel client chunks
                    (seq 1 (List.length chunks)) t)) p
  = Some (reply_text (S p) (client (S p) chunk)).
Proof.
  intros Hp. rewrite process_chunks_parallel_fst.
  assert (Hr : Forall (fun i => In i (seq 1 (List.length chunks)))
                      (seq 1 (List.length chunks)))
    by (apply Forall_forall; auto).
  destruct (as_completed_map chunks _ Hr) as [_ Hnth].
  rewrite nth_error_map, (Hnth p (S p) chunk); [reflexivity| |exact Hp].
  assert (p < List.length chunks)%nat
    by (apply nth_error_Some; congruence).
  rewrite nth_error_seq. destruct (Nat.ltb_spec p (List.length chunks)); [reflexivity|lia].
Qed.

(** C1, for two chunks of which the second completes first: the results
    come back in completion order; position 0 holds the result of chunk 2,
    not that of chunk 1. *)
Theorem results_follow_completion_order :
  Permutation [2; 1]%nat (seq 1 (List.length [chunk_one; chunk_two]))
  /\ fst (process_chunks_parallel translating_client [chunk_one; chunk_two]
            [2; 1]%nat (CostTracker_init 0%Q))
     = [reply_two; reply_one]
  /\ fst (process_chunk chunk_one translating_client 1 (CostTracker_init 0%Q))
     = Returned reply_one
  /\ reply_two <> reply_one.
Proof.
  split; [apply perm_swap|].
  split; [vm_compute; reflexivity|].
  split; [vm_compute; reflexivity|].
  vm_compute. discriminate.
Qed.

(** * Properties of the validation *)

Lemma lstrip_split (s : pystr) :
  exists l, s = l ++ lstrip s /\ forallb isspace l = true.
Proof.
  induction s as [|c t (l & E & Hl)]; simpl.
  - now exists [].
  - destruct (isspace c) eqn:Hc.
    + exists (c :: l). simpl. rewrite Hc, Hl. split; [now f_equal|reflexivity].
    + now exists [].
Qed.

Lemma forallb_rev {A} (f : A -> bool) (l : list A) :
  forallb f (rev l) = forallb f l.
Proof.
  induction l as [|a l IH]; simpl; [reflexivity|].
  rewrite forallb_app, IH. simpl. rewrite andb_true_r. apply andb_comm.
Qed.

Lemma rstrip_split (s : pystr) :
  exists r, s = rstrip s ++ r /\ forallb isspace r = true.
Proof.
  destruct (lstrip_split (rev s)) as (l & E & Hl).
  exists (rev l). split.
  - unfold rstrip. rewrite <- rev_app_distr, <- E. now rewrite rev_involutive.
  - now rewrite forallb_rev.
Qed.

(** Trimming takes white space off both ends and nothing else. *)
Lemma strip_split (s : pystr) :
  exists l r, s = l ++ strip s ++ r
              /\ forallb isspace l = true /\ forallb isspace r = true.
Proof.
  destruct (rstrip_split s) as (r & Er & Hr).
  destruct (lstrip_split (rstrip s)) as (l & El & Hl).
  exists l, r. unfold strip. repeat split; trivial.
  rewrite app_assoc, <- El. exact Er.
Qed.

Lemma startswith_app (p x post : pystr) :
  startswith p x = true -> startswith p (x ++ post) = true.
Proof.
  revert x. induction p as [|a p IH]; intros [|b x]; simpl; trivial;
    [discriminate|].
  intros H. apply andb_true_iff in H as [H1 H2]. rewrite H1. simpl. now apply IH.
Qed.

Lemma startswith_refl_app (p post : pystr) : startswith p (p ++ post) = true.
Proof.
  induction p as [|a p IH]; simpl; [reflexivity|].
  now rewrite N.eqb_refl.
Qed.

Lemma startswith_inv (p s : pystr) :
  startswith p s = true -> exists post, s = p ++ post.
Proof.
  revert s. induction p as [|a p IH]; intros s H; simpl in *.
  - now exists s.
  - destruct s as [|b s]; [discriminate|].
    apply andb_true_iff in H as [H1 H2]. apply N.eqb_eq in H1. subst b.
    destruct (IH s H2) as [post ->]. now exists post.
Qed.

Lemma contains_cons (sub : pystr) (c : char) (t : pystr) :
  contains sub (c :: t) = startswith sub (c :: t) || contains sub t.
Proof. reflexivity. Qed.

Lemma contains_app_r (sub x post : pystr) :
  contains sub x = true -> contains sub (x ++ post) = true.
Proof.
  induction x as [|c x IH]; intros H.
  - simpl in H. rewrite orb_false_r in H.
    destruct sub; [|discriminate]. destruct post; reflexivity.
  - rewrite contains_cons in H. simpl app. rewrite contains_cons.
    apply orb_true_iff in H as [H|H]; apply orb_true_iff.
    + left. now apply (startswith_app sub (c :: x) post).
    + right. now apply IH.
Qed.

Lemma contains_app_l (sub pre x : pystr) :
  contains sub x = true -> contains sub (pre ++ x) = true.
Proof.
  intros H. induction pre as [|c pre IH]; [exact H|].
  simpl app. rewrite contains_cons, IH. apply orb_true_r.
Qed.

Lemma contains_infix (sub pre post : pystr) :
  contains sub (pre ++ sub ++ post) = true.
Proof.
  apply contains_app_l. destruct sub as [|a sub]; [destruct post; reflexivity|].
  simpl app. rewrite contains_cons.
  change (a :: sub ++ post) with ((a :: sub) ++ post).
  now rewrite startswith_refl_app.
Qed.

(** A marker missing from the text is missing from the trimmed text. *)
Lemma strip_keeps_missing (sub s : pystr) :
  contains sub s = false -> contains sub (strip s) = false.
Proof.
  intros H. destruct (contains sub (strip s)) eqn:E; [|reflexivity].
  destruct (strip_split s) as (l & r & Es & _).
  rewrite Es in H. rewrite <- H. symmetry.
  apply contains_app_l. now apply contains_app_r.
Qed.

(** * Properties of the aggregation *)

Lemma join_cons2 (sep x y : pystr) (rest : list pystr) :
  join sep (x :: y :: rest) = x ++ sep ++ join sep (y :: rest).
Proof. reflexivity. Qed.

Lemma join_keeps (sep e : pystr) (l : list pystr) :
  In e l -> exists pre post, join sep l = pre ++ e ++ post.
Proof.
  induction l as [|x [|y rest] IH]; intros H.
  - destruct H.
  - destruct H as [->|[]]. exists [], []. now rewrite app_nil_r.
  - rewrite join_cons2. destruct H as [->|H].
    + exists [], (sep ++ join sep (y :: rest)). reflexivity.
    + destruct (IH H) as (pre & post & ->).
      exists (x ++ sep ++ pre), post. now rewrite <- !app_assoc.
Qed.

Lemma aggregate_keeps (e : pystr) (results : list pystr) :
  In e results -> truthy e = true ->
  exists pre post, aggregate results = pre ++ e ++ post.
Proof.
  intros Hin He. apply join_keeps. apply filter_In. now split.
Qed.

(** C5: when the remote call for a chunk returns text without ["German:"]
    or without ["English:"], [process_chunk] returns the error tag followed
    by the returned text (trimmed of surrounding white space, as the code
    trims every reply); this string is not empty, it is among the results
    of the dispatcher, and the aggregated output contains it. *)
Theorem malformed_reply_is_kept
    (client : Client) (chunks : list pystr) (completion : list nat)
    (t : CostTracker) (i : nat) (chunk : pystr) (response : Response)
    (content : pystr) (rest : list (option pystr)) :
  Permutation completion (seq 1 (List.length chunks)) ->
  chunk_at chunks i = Some chunk ->
  client i chunk = Returned response ->
  choices response = Some content :: rest ->
  contains German content = false \/ contains English content = false ->
  (forall t', fst (process_chunk chunk client i t')
              = Returned (error_tag i ++ strip content))
  /\ truthy (error_tag i ++ strip content) = true
  /\ startswith (of_string "[Error processing chunk ")
                (error_tag i ++ strip content) = true
  /\ (exists l r, content = l ++ strip content ++ r
                  /\ forallb isspace l = true /\ forallb isspace r = true)
  /\ In (error_tag i ++ strip content)
        (fst (process_chunks_parallel client chunks completion t))
  /\ exists pre post,
       aggregate (fst (process_chunks_parallel client chunks completion t))
       = pre ++ (error_tag i ++ strip content) ++ post.
Proof.
  intros Hperm Hi Hc Hch Hmiss.
  assert (Ht : truthy (error_tag i ++ strip content) = true) by reflexivity.
  assert (Hr : reply_text i (client i chunk) = error_tag i ++ strip content).
  { unfold reply_text. rewrite Hc, Hch.
    destruct Hmiss as [H|H]; apply strip_keeps_missing in H; rewrite H;
      simpl; [|rewrite orb_true_r]; reflexivity. }
  assert (Hin : In (error_tag i ++ strip content)
                   (fst (process_chunks_parallel client chunks completion t))).
  { rewrite process_chunks_parallel_fst, <- Hr.
    change (reply_text i (client i chunk)) with (future_text client (i, chunk)).
    apply in_map. unfold as_completed. apply in_flat_map. exists i. split.
    - apply (Permutation_in _ (Permutation_sym Hperm)).
      now apply chunk_at_in_seq with chunk.
    - rewrite Hi. now left. }
  repeat split; trivial.
  - intros t'. now rewrite process_chunk_fst, Hr.
  - apply strip_split.
  - now apply aggregate_keeps.
Qed.

Lemma malformed_reply_is_kept_witness :
  In (error_tag 1 ++ strip unformatted_reply)
     (fst (process_chunks_parallel plain_client [chunk_one] [1%nat]
             (CostTracker_init 0%Q))).
Proof.
  apply (malformed_reply_is_kept plain_client [chunk_one] [1%nat]
           (CostTracker_init 0%Q) 1 chunk_one
           {| usage := None; choices := [Some unformatted_reply] |}
           unformatted_reply []).
  - apply Permutation_refl.
  - reflexivity.
  - reflexivity.
  - reflexivity.
  - left. vm_compute. reflexivity.
Defined.

Lemma count_from_cons0 (sub : pystr) (c : char) (t : pystr) :
  count_from sub (c :: t) 0
  = if startswith sub (c :: t)
    then S (count_from sub t (List.length sub - 1))
    else count_from sub t 0.
Proof. reflexivity. Qed.

Lemma contains_cons_false (sub : pystr) (c : char) (t : pystr) :
  contains sub (c :: t) = false ->
  startswith sub (c :: t) = false /\ contains sub t = false.
Proof. rewrite contains_cons. apply orb_false_iff. Qed.

(** An occurrence of the separator brings its rule with it. *)
Lemma separator_has_dashes (s : pystr) :
  startswith separator s = true -> contains dashes s = true.
Proof.
  intros H. apply startswith_inv in H as [post ->].
  apply (contains_infix dashes [LF; LF] ([LF; LF] ++ post)).
Qed.

(** No occurrence of the separator starts inside a result that has no
    rule, even when the separator follows it. *)
Lemma no_separator_across (c : char) (r x : pystr) :
  contains dashes (c :: r) = false ->
  startswith separator ((c :: r) ++ separator ++ x) = false.
Proof.
  intros H. destruct (startswith separator _) eqn:E; [|reflexivity].
  apply startswith_inv in E as [post E].
  destruct r as [|a [|b [|d [|e r]]]]; try discriminate E.
  injection E as -> -> -> -> -> _.
  destruct (eq_true_false_abs _ (contains_infix dashes [LF; LF] r) H).
Qed.

Lemma count_across (r x : pystr) :
  contains dashes r = false ->
  count separator (r ++ separator ++ x) = S (count separator x).
Proof.
  unfold count. induction r as [|c r IH]; intros H.
  - reflexivity.
  - apply contains_cons_false in H as H'. destruct H' as [_ Hr].
    change ((c :: r) ++ separator ++ x) with (c :: (r ++ separator ++ x)).
    rewrite count_from_cons0.
    change (c :: (r ++ separator ++ x)) with ((c :: r) ++ separator ++ x).
    rewrite (no_separator_across c r x H). now apply IH.
Qed.

Lemma count_none (r : pystr) :
  contains dashes r = false -> count separator r = 0%nat.
Proof.
  unfold count. induction r as [|c r IH]; intros H; [reflexivity|].
  rewrite count_from_cons0.
  destruct (startswith separator (c :: r)) eqn:E.
  - apply separator_has_dashes in E. congruence.
  - apply contains_cons_false in H as [_ Hr]. now apply IH.
Qed.

Lemma count_join (l : list pystr) :
  Forall (fun r => contains dashes r = false) l ->
  l <> [] ->
  S (count separator (join separator l)) = List.length l.
Proof.
  induction l as [|x [|y rest] IH]; intros Hd Hne.
  - congruence.
  - simpl. inversion Hd; subst. now rewrite count_none.
  - rewrite join_cons2. inversion Hd; subst.
    rewrite count_across by assumption.
    rewrite IH by (trivial; discriminate). reflexivity.
Qed.

Lemma len_join (l : list pystr) :
  l <> [] ->
  len (join separator l) = total_len l + 7 * (Z.of_nat (List.length l) - 1).
Proof.
  induction l as [|x [|y rest] IH]; intros Hne.
  - congruence.
  - simpl. lia.
  - rewrite join_cons2, !len_app, IH by discriminate.
    change (len separator) with 7.
    change (total_len (x :: y :: rest)) with (len x + total_len (y :: rest)).
    change (List.length (x :: y :: rest)) with (S (List.length (y :: rest))).
    lia.
Qed.

Lemma total_len_filter (results : list pystr) :
  total_len (filter truthy results) = total_len results.
Proof.
  induction results as [|[|c r] rest IH]; simpl; trivial.
  now rewrite IH.
Qed.

(** C4 fails as stated: a single result in which the service put a rule
    between blank lines aggregates to an output with one occurrence of the
    separator, where the count of non-empty results less one is zero. *)
Lemma separator_count_counterexample :
  Z.of_nat (count separator (aggregate [reply_with_rule]))
  <> Z.of_nat (List.length (filter truthy [reply_with_rule])) - 1.
Proof. vm_compute. discriminate. Qed.

(** * Further properties of the chunker *)

Lemma split2_cons2 (a b c d : char) (t : pystr) :
  split2 a b (c :: d :: t)
  = if ((c =? a) && (d =? b))%N then [] :: split2 a b t
    else cons_head c (split2 a b (d :: t)).
Proof. reflexivity. Qed.

Lemma split2_nonempty (a b : char) (s : pystr) : split2 a b s <> [].
Proof.
  destruct s as [|c [|d t]]; try discriminate.
  rewrite split2_cons2.
  destruct ((c =? a) && (d =? b))%N; [discriminate|].
  unfold cons_head. destruct (split2 a b (d :: t)); discriminate.
Qed.

Lemma join_cons_head (sep : pystr) (c : char) (l : list pystr) :
  l <> [] -> join sep (cons_head c l) = c :: join sep l.
Proof. intros H. destruct l as [|h [|y r]]; [congruence| |]; reflexivity. Qed.

Lemma join_nil_cons (sep : pystr) (l : list pystr) :
  l <> [] -> join sep ([] :: l) = sep ++ join sep l.
Proof. intros H. destruct l; [congruence|reflexivity]. Qed.

(** Joining the fragments with the separator gives the text back. *)
Lemma join_split2 (a b : char) (s : pystr) : join [a; b] (split2 a b s) = s.
Proof.
  assert (H : join [a; b] (split2 a b s) = s
              /\ forall c, join [a; b] (split2 a b (c :: s)) = c :: s).
  { induction s as [|d t [IH1 IH2]].
    - split; reflexivity.
    - split; [apply IH2|]. intros c. rewrite split2_cons2.
      destruct ((c =? a) && (d =? b))%N eqn:E.
      + apply andb_true_iff in E as [Ec Ed].
        apply N.eqb_eq in Ec, Ed. subst.
        rewrite join_nil_cons by apply split2_nonempty. now rewrite IH1.
      + rewrite join_cons_head by apply split2_nonempty. now rewrite IH2. }
  apply H.
Qed.

Lemma cons_head_head (c : char) (l : list pystr) :
  exists h r, cons_head c l = (c :: h) :: r
              /\ (l = [] /\ h = [] /\ r = [] \/ l = h :: r).
Proof.
  destruct l as [|h r]; simpl.
  - exists [], []. auto.
  - exists h, r. auto.
Qed.

Lemma startswith2_false (a b c d : char) (t : pystr) :
  ((c =? a) && (d =? b))%N = false -> startswith [a; b] (c :: d :: t) = false.
Proof.
  intros E. simpl. rewrite (N.eqb_sym a c), (N.eqb_sym b d), andb_true_r.
  exact E.
Qed.

Lemma startswith2_short (a b c : char) : startswith [a; b] [c] = false.
Proof. simpl. apply andb_false_r. Qed.

(** No fragment contains the separator: the head fragment of [c :: s] does
    not, and no later one does. *)
Lemma split2_no_separator (a b : char) (s : pystr) :
  Forall (fun f => contains [a; b] f = false) (split2 a b s).
Proof.
  assert (H : Forall (fun f => contains [a; b] f = false) (split2 a b s)
              /\ forall c, Forall (fun f => contains [a; b] f = false)
                                  (split2 a b (c :: s))).
  { induction s as [|d t [IH1 IH2]].
    - split; [repeat constructor|]. intros c. repeat constructor.
      simpl. now rewrite !andb_false_r.
    - split; [apply IH2|]. intros c. rewrite split2_cons2.
      destruct ((c =? a) && (d =? b))%N eqn:E.
      + constructor; [reflexivity|exact IH1].
      + specialize (IH2 d). pose proof (split2_nonempty a b (d :: t)) as Hne.
        destruct (split2 a b (d :: t)) as [|h r] eqn:Es; [congruence|].
        simpl. inversion IH2 as [|? ? Hh Hr]; subst.
        constructor; [|exact Hr].
        rewrite contains_cons, Hh, orb_false_r.
        destruct t as [|e t].
        * simpl in Es. inversion Es; subst. now apply startswith2_false.
        * rewrite split2_cons2 in Es.
          destruct ((d =? a) && (e =? b))%N.
          -- inversion Es; subst. apply startswith2_short.
          -- destruct (cons_head_head d (split2 a b (e :: t)))
               as (h' & r' & Ec & _).
             rewrite Ec in Es. inversion Es; subst.
             now apply startswith2_false. }
  apply H.
Qed.

(** A fragment holds no newline: they were replaced before the split. *)
Lemma sentences_no_newline (text f : pystr) :
  In f (sentences_of text) -> ~ In LF f.
Proof.
  unfold sentences_of. intros Hf Hin.
  destruct (join_keeps [DOT; SPACE] f _ Hf) as (pre & post & E).
  rewrite join_split2 in E.
  assert (H : In LF (replace LF SPACE text))
    by (rewrite E; apply in_or_app; right; apply in_or_app; now left).
  unfold replace in H. apply in_map_iff in H as (c & Hc & _).
  destruct (N.eqb_spec c LF); [discriminate|congruence].
Qed.

(** X1: the fragments the chunker works on are what [". "] separates in
    the text with its newlines replaced by spaces: joined again with
    [". "] they give that text back, there is at least one, and none of them
    contains [". "] or a newline. *)
Theorem sentences_round_trip (text : pystr) :
  join (of_string ". ") (sentences_of text) = replace LF SPACE text
  /\ sentences_of text <> []
  /\ Forall (fun f => contains (of_string ". ") f = false /\ ~ In LF f)
            (sentences_of text).
Proof.
  split; [exact (join_split2 DOT SPACE (replace LF SPACE text))|].
  split; [exact (split2_nonempty DOT SPACE (replace LF SPACE text))|].
  apply Forall_forall. intros f Hf. split.
  - revert f Hf. apply Forall_forall.
    exact (split2_no_separator DOT SPACE (replace LF SPACE text)).
  - now apply sentences_no_newline with text.
Qed.

Lemma lstrip_idem (s : pystr) : lstrip (lstrip s) = lstrip s.
Proof.
  induction s as [|c t IH]; simpl; [reflexivity|].
  destruct (isspace c) eqn:E; [exact IH|]. simpl. now rewrite E.
Qed.

Lemma rstrip_ends_dot (y : pystr) : rstrip (y ++ [DOT]) = y ++ [DOT].
Proof.
  unfold rstrip. rewrite rev_app_distr. simpl.
  now rewrite rev_involutive.
Qed.

Lemma strip_Forall (P : char -> Prop) (s : pystr) :
  Forall P s -> Forall P (strip s).
Proof.
  intros H. destruct (strip_split s) as (l & r & E & _).
  rewrite E in H. apply Forall_app in H as [_ H].
  now apply Forall_app in H as [H _].
Qed.

Section CharsInv.

Variable P : char -> Prop.
Hypothesis P_dot : P DOT.
Hypothesis P_space : P SPACE.
Variable max_chunk_size : Z.

Lemma chars_inv_step st sentence :
  Forall P sentence -> chars_inv P st ->
  chars_inv P (chunk_step max_chunk_size st sentence).
Proof.
  intros Hs [Hc Hb]. destruct st as [chunks cur]. simpl in Hc, Hb.
  assert (Hd : Forall P (sentence ++ dot_space))
    by (apply Forall_app; split; [exact Hs|repeat constructor; assumption]).
  unfold chunk_step.
  destruct ((len cur + len sentence >? max_chunk_size) && truthy cur);
    split; simpl; trivial.
  - apply Forall_app. split; [exact Hc|].
    constructor; [now apply strip_Forall|constructor].
  - apply Forall_app. now split.
Qed.

Lemma chars_inv_fold l st :
  Forall (Forall P) l -> chars_inv P st ->
  chars_inv P (fold_left (chunk_step max_chunk_size) l st).
Proof.
  revert st. induction l as [|s l IH]; intros st Hl Hst; simpl; [exact Hst|].
  inversion Hl; subst. apply IH; [assumption|]. now apply chars_inv_step.
Qed.

Lemma chars_inv_flush st : chars_inv P st -> Forall (Forall P) (flush st).
Proof.
  intros [Hc Hb]. destruct st as [chunks cur]. simpl in *.
  destruct (truthy cur); [|exact Hc].
  apply Forall_app. split; [exact Hc|].
  constructor; [now apply strip_Forall|constructor].
Qed.

End CharsInv.

(** X2: every chunk returned is longer than 50 characters, is already
    trimmed (stripping it again changes nothing) and contains no newline. *)
Theorem chunks_are_clean (text : pystr) (max_chunk_size : Z) :
  Forall (fun chunk => 50 < len chunk
                       /\ strip chunk = chunk
                       /\ ~ In LF chunk)
         (split_into_contextual_chunks text max_chunk_size).
Proof.
  apply Forall_forall. intros c Hc. split; [|split].
  - unfold split_into_contextual_chunks in Hc.
    apply filter_In in Hc as [_ Hc]. now apply Z.gtb_lt in Hc.
  - pose proof (chunks_shape text max_chunk_size) as Hs.
    rewrite Forall_forall in Hs. destruct (Hs c Hc) as (x & -> & _).
    assert (E : strip (x ++ dot_space) = lstrip (x ++ [DOT]))
      by (unfold strip; now rewrite rstrip_dot_space).
    rewrite E. destruct (lstrip_keeps_dot x) as [y Ey].
    unfold strip. rewrite Ey, rstrip_ends_dot, <- Ey. apply lstrip_idem.
  - unfold split_into_contextual_chunks in Hc.
    apply filter_In in Hc as [Hc _].
    assert (H : Forall (Forall (fun ch => ch <> LF))
                  (flush (fold_left (chunk_step max_chunk_size)
                            (sentences_of text) ([], [])))).
    { apply chars_inv_flush. apply chars_inv_fold; try discriminate.
      - apply Forall_forall. intros f Hf. apply Forall_forall.
        intros ch Hch ->.
        now apply (sentences_no_newline text f Hf).
      - split; constructor. }
    rewrite Forall_forall in H. specialize (H c Hc).
    rewrite Forall_forall in H. intros Hin. now apply (H LF Hin).
Qed.

Lemma with_delimiters_join (l : list pystr) :
  l <> [] -> with_delimiters l = join dot_space l ++ dot_space.
Proof.
  induction l as [|x [|y rest] IH]; intros Hne.
  - congruence.
  - simpl. now rewrite app_nil_r.
  - change (with_delimiters (x :: y :: rest))
      with ((x ++ dot_space) ++ with_delimiters (y :: rest)).
    rewrite IH by discriminate. rewrite join_cons2.
    now rewrite <- !app_assoc.
Qed.

Lemma with_delimiters_cons (s : pystr) (l : list pystr) :
  with_delimiters (s :: l) = s ++ dot_space ++ with_delimiters l.
Proof. unfold with_delimiters. simpl. now rewrite <- app_assoc. Qed.

Lemma len_replace (a b : char) (s : pystr) : len (replace a b s) = len s.
Proof. unfold len, replace. now rewrite length_map. Qed.

(** The fragments with their delimiters are the normalised text and one
    more delimiter. *)
Lemma with_delimiters_sentences (text : pystr) :
  with_delimiters (sentences_of text) = replace LF SPACE text ++ dot_space.
Proof.
  rewrite with_delimiters_join
    by exact (split2_nonempty DOT SPACE (replace LF SPACE text)).
  f_equal. exact (join_split2 DOT SPACE (replace LF SPACE text)).
Qed.

Lemma budget_inv_step (max_chunk_size budget : Z) st sentence :
  0 <= budget -> budget_inv budget st ->
  budget_inv (budget + (len sentence + 2))
             (chunk_step max_chunk_size st sentence).
Proof.
  intros Hb [Hc Hcur]. destruct st as [chunks cur]. simpl in Hc, Hcur.
  pose proof (len_nonneg sentence) as Hs.
  assert (Hc' : Forall (fun c => len c + 1 <= budget + (len sentence + 2)) chunks)
    by (eapply Forall_impl; [|exact Hc]; simpl; intros; lia).
  unfold chunk_step.
  destruct ((len cur + len sentence >? max_chunk_size) && truthy cur) eqn:E;
    split; simpl.
  - apply andb_true_iff in E as [_ Ht].
    apply Forall_app. split; [exact Hc'|]. constructor; [|constructor].
    destruct Hcur as [->|(x & -> & Hx)]; [discriminate|].
    pose proof (strip_dot_space_len x). lia.
  - right. exists sentence. split; [reflexivity|lia].
  - exact Hc'.
  - right. destruct Hcur as [->|(x & -> & Hx)].
    + exists sentence. split; [reflexivity|lia].
    + exists ((x ++ dot_space) ++ sentence). split.
      * now rewrite <- !app_assoc.
      * rewrite !len_app. change (len dot_space) with 2. lia.
Qed.

Lemma budget_inv_fold (max_chunk_size : Z) l budget st :
  0 <= budget -> budget_inv budget st ->
  budget_inv (budget + len (with_delimiters l))
             (fold_left (chunk_step max_chunk_size) l st).
Proof.
  revert budget st. induction l as [|s l IH]; intros budget st Hb Hst.
  - simpl. change (len []) with 0. now rewrite Z.add_0_r.
  - simpl fold_left. rewrite with_delimiters_cons, !len_app.
    change (len dot_space) with 2.
    replace (budget + (len s + (2 + len (with_delimiters l))))
      with ((budget + (len s + 2)) + len (with_delimiters l)) by lia.
    pose proof (len_nonneg s). apply IH; [lia|].
    now apply budget_inv_step.
Qed.

Lemma budget_inv_flush (budget : Z) st :
  budget_inv budget st -> Forall (fun c => len c + 1 <= budget) (flush st).
Proof.
  intros [Hc Hcur]. destruct st as [chunks cur]. simpl in *.
  destruct (truthy cur) eqn:Ht; [|exact Hc].
  apply Forall_app. split; [exact Hc|]. constructor; [|constructor].
  destruct Hcur as [->|(x & -> & Hx)]; [discriminate|].
  pose proof (strip_dot_space_len x). lia.
Qed.

(** Before the length filter, no chunk is more than one character longer
    than the text. *)
Lemma unfiltered_chunks_bound (text : pystr) (max_chunk_size : Z) :
  Forall (fun c => len c <= len text + 1)
         (flush (fold_left (chunk_step max_chunk_size) (sentences_of text)
                   ([], []))).
Proof.
  assert (H : budget_inv (0 + len (with_delimiters (sentences_of text)))
                (fold_left (chunk_step max_chunk_size) (sentences_of text)
                   ([], []))).
  { apply budget_inv_fold; [lia|]. split; simpl; [constructor|now left]. }
  apply budget_inv_flush in H.
  rewrite with_delimiters_sentences, len_app, len_replace in H.
  change (len dot_space) with 2 in H.
  eapply Forall_impl; [|exact H]. simpl. intros; lia.
Qed.

Lemma filter_none {A} (f : A -> bool) (l : list A) :
  Forall (fun x => f x = false) l -> filter f l = [].
Proof.
  induction 1 as [|x l Hx _ IH]; simpl; [reflexivity|]. now rewrite Hx.
Qed.

(** X3: no chunk is more than one character longer than the text (the
    period put back after the last fragment), so a text of fewer than 50
    characters gives no chunk at all: its content is dropped by the length
    filter, whatever the maximum size. *)
Theorem short_text_gives_no_chunk (text : pystr) (max_chunk_size : Z) :
  Forall (fun c => len c <= len text + 1)
         (split_into_contextual_chunks text max_chunk_size)
  /\ (len text < 50 -> split_into_contextual_chunks text max_chunk_size = []).
Proof.
  pose proof (unfiltered_chunks_bound text max_chunk_size) as H. split.
  - unfold split_into_contextual_chunks. apply Forall_forall. intros c Hc.
    apply filter_In in Hc as [Hc _]. revert c Hc. now apply Forall_forall.
  - intros Hlt. unfold split_into_contextual_chunks. apply filter_none.
    eapply Forall_impl; [|exact H]. simpl. intros c Hc.
    rewrite Z.gtb_ltb. apply Z.ltb_ge. lia.
Qed.

Lemma short_text_gives_no_chunk_witness :
  len chunk_one < 50
  /\ split_into_contextual_chunks chunk_one default_max_chunk_size = [].
Proof.
  split; [reflexivity|].
  apply (short_text_gives_no_chunk chunk_one default_max_chunk_size).
  reflexivity.
Defined.

Lemma fold_fits (max_chunk_size : Z) (l : list pystr) (cur : pystr) :
  len cur + len (with_delimiters l) <= max_chunk_size + 2 ->
  fold_left (chunk_step max_chunk_size) l ([], cur)
  = ([], cur ++ with_delimiters l).
Proof.
  revert cur. induction l as [|s l IH]; intros cur H.
  - simpl. now rewrite app_nil_r.
  - rewrite with_delimiters_cons, !len_app in H.
    change (len dot_space) with 2 in H.
    pose proof (len_nonneg (with_delimiters l)) as Hl.
    assert (E : (len cur + len s >? max_chunk_size) = false)
      by (rewrite Z.gtb_ltb; apply Z.ltb_ge; lia).
    assert (Es : chunk_step max_chunk_size ([], cur) s
                 = ([], cur ++ s ++ dot_space))
      by (unfold chunk_step; now rewrite E).
    cbn [fold_left]. rewrite Es, IH.
    + rewrite with_delimiters_cons. now rewrite <- !app_assoc.
    + rewrite !len_app. change (len dot_space) with 2. lia.
Qed.

(** X4: a text no longer than the maximum size is never cut: the result is
    the whole text, newlines replaced by spaces, a period and a space
    appended, trimmed; and it is returned only if it is longer than 50
    characters. *)
Theorem text_that_fits_is_one_chunk (text : pystr) (max_chunk_size : Z) :
  len text <= max_chunk_size ->
  split_into_contextual_chunks text max_chunk_size
  = filter (fun chunk => len chunk >? 50)
           [strip (replace LF SPACE text ++ of_string ". ")].
Proof.
  intros H. unfold split_into_contextual_chunks.
  rewrite fold_fits.
  - simpl app. rewrite with_delimiters_sentences. unfold flush.
    destruct (replace LF SPACE text); reflexivity.
  - change (len []) with 0.
    rewrite with_delimiters_sentences, len_app, len_replace.
    change (len dot_space) with 2. lia.
Qed.

Lemma text_that_fits_is_one_chunk_witness :
  len (two_sentences) <= 400
  /\ split_into_contextual_chunks two_sentences 400
     = filter (fun chunk => len chunk >? 50)
              [strip (replace LF SPACE two_sentences ++ of_string ". ")].
Proof.
  split; [vm_compute; discriminate|].
  apply (text_that_fits_is_one_chunk two_sentences 400).
  vm_compute. discriminate.
Defined.

Lemma join_app (sep : pystr) (l1 l2 : list pystr) :
  l1 <> [] -> l2 <> [] ->
  join sep (l1 ++ l2) = join sep l1 ++ sep ++ join sep l2.
Proof.
  intros H1 H2. induction l1 as [|x [|y rest] IH]; [congruence| |].
  - destruct l2; [congruence|reflexivity].
  - change ((x :: y :: rest) ++ l2) with (x :: y :: (rest ++ l2)).
    rewrite !join_cons2.
    change (y :: rest ++ l2) with ((y :: rest) ++ l2).
    rewrite IH by discriminate. now rewrite <- !app_assoc.
Qed.

Lemma join_segment (sep : pystr) (l seg : list pystr) :
  segment_of l seg -> exists pre post, join sep l = pre ++ join sep seg ++ post.
Proof.
  intros [Hne (before & after & ->)].
  assert (Hsa : exists post, join sep (seg ++ after) = join sep seg ++ post).
  { destruct after as [|a after].
    - exists []. now rewrite !app_nil_r.
    - exists (sep ++ join sep (a :: after)). apply join_app; [exact Hne|discriminate]. }
  destruct Hsa as [post Hsa].
  destruct before as [|b before].
  - exists [], post. exact Hsa.
  - exists (join sep (b :: before) ++ sep), post.
    rewrite join_app; [|discriminate|destruct seg; [congruence|discriminate]].
    rewrite Hsa. now rewrite <- !app_assoc.
Qed.

Lemma lstrip_dot_suffix (x : pystr) :
  exists l y, x = l ++ y /\ lstrip (x ++ [DOT]) = y ++ [DOT].
Proof.
  induction x as [|c t (l & y & E & H)].
  - exists [], []. split; reflexivity.
  - simpl. destruct (isspace c).
    + exists (c :: l), y. split; [simpl; now f_equal|exact H].
    + exists [], (c :: t). split; reflexivity.
Qed.

Lemma run_inv_step (max_chunk_size : Z) consumed s remaining st :
  run_inv consumed (s :: remaining) st ->
  run_inv (consumed ++ [s]) remaining (chunk_step max_chunk_size st s).
Proof.
  intros [Hc Hcur]. destruct st as [chunks cur]. simpl in Hc, Hcur.
  assert (Hc' : Forall (fun c => exists seg,
                          segment_of ((consumed ++ [s]) ++ remaining) seg
                          /\ c = strip (with_delimiters seg)) chunks)
    by (rewrite <- app_assoc; exact Hc).
  assert (Hone : exists before seg, seg <> [] /\ consumed ++ [s] = before ++ seg
                                    /\ s ++ dot_space = with_delimiters seg).
  { exists consumed, [s]. repeat split; [discriminate|].
    unfold with_delimiters. simpl. now rewrite app_nil_r. }
  unfold chunk_step.
  destruct ((len cur + len s >? max_chunk_size) && truthy cur) eqn:E;
    split; simpl.
  - apply andb_true_iff in E as [_ Ht].
    apply Forall_app. split; [exact Hc'|]. constructor; [|constructor].
    destruct Hcur as [->|(before & seg & Hne & -> & ->)]; [discriminate|].
    exists seg. split; [|reflexivity]. split; [exact Hne|].
    exists before, ([s] ++ remaining). now rewrite <- !app_assoc.
  - right. exact Hone.
  - exact Hc'.
  - right. destruct Hcur as [->|(before & seg & Hne & -> & ->)].
    + exact Hone.
    + exists before, (seg ++ [s]). repeat split.
      * destruct seg; discriminate.
      * now rewrite app_assoc.
      * unfold with_delimiters. rewrite flat_map_app. simpl.
        now rewrite app_nil_r.
Qed.

Lemma run_inv_fold (max_chunk_size : Z) remaining consumed st :
  run_inv consumed remaining st ->
  run_inv (consumed ++ remaining) []
          (fold_left (chunk_step max_chunk_size) remaining st).
Proof.
  revert consumed st. induction remaining as [|s l IH]; intros consumed st H.
  - simpl. now rewrite app_nil_r.
  - simpl fold_left.
    replace (consumed ++ s :: l) with ((consumed ++ [s]) ++ l)
      by now rewrite <- app_assoc.
    apply IH. now apply run_inv_step.
Qed.

Lemma run_inv_flush (sentences : list pystr) st :
  run_inv sentences [] st ->
  Forall (fun c => exists seg, segment_of sentences seg
                               /\ c = strip (with_delimiters seg)) (flush st).
Proof.
  intros [Hc Hcur]. destruct st as [chunks cur]. simpl in *.
  rewrite app_nil_r in Hc.
  destruct (truthy cur) eqn:Ht; [|exact Hc].
  apply Forall_app. split; [exact Hc|]. constructor; [|constructor].
  destruct Hcur as [->|(before & seg & Hne & -> & ->)]; [discriminate|].
  exists seg. split; [|reflexivity]. split; [exact Hne|].
  exists before, []. now rewrite app_nil_r.
Qed.

(** X5: the chunker copies and never rewrites: every chunk is a run of
    consecutive fragments joined by [". "], with leading white space
    trimmed and a period at the end; so a chunk without its final period
    occurs verbatim in the text (newlines replaced by spaces). *)
Theorem chunks_come_from_the_text (text : pystr) (max_chunk_size : Z) :
  Forall (fun chunk =>
            exists seg y,
              segment_of (sentences_of text) seg
              /\ chunk = lstrip (join (of_string ". ") seg ++ of_string ".")
              /\ chunk = y ++ of_string "."
              /\ exists pre post, replace LF SPACE text = pre ++ y ++ post)
         (split_into_contextual_chunks text max_chunk_size).
Proof.
  apply Forall_forall. intros c Hc.
  unfold split_into_contextual_chunks in Hc. apply filter_In in Hc as [Hc _].
  assert (H : run_inv ([] ++ sentences_of text) []
                (fold_left (chunk_step max_chunk_size) (sentences_of text)
                   ([], [])))
    by (apply run_inv_fold; split; simpl; [constructor|now left]).
  change ([] ++ sentences_of text) with (sentences_of text) in H.
  apply run_inv_flush in H. rewrite Forall_forall in H.
  destruct (H c Hc) as (seg & Hseg & ->).
  assert (E : strip (with_delimiters seg)
              = lstrip (join dot_space seg ++ [DOT])).
  { rewrite with_delimiters_join by apply Hseg.
    unfold strip. now rewrite rstrip_dot_space. }
  destruct (lstrip_dot_suffix (join dot_space seg)) as (l & y & Ej & Ey).
  exists seg, y. split; [exact Hseg|]. split; [exact E|].
  split; [now rewrite E, Ey|].
  - destruct (join_segment dot_space _ _ Hseg) as (pre & post & Et).
    assert (Ert : join dot_space (sentences_of text) = replace LF SPACE text)
      by exact (join_split2 DOT SPACE (replace LF SPACE text)).
    rewrite Ert, Ej in Et.
    exists (pre ++ l), post. rewrite Et. now rewrite <- !app_assoc.
Qed.

(** * Further properties of the unit of work *)

Lemma contains_inv (sub s : pystr) :
  contains sub s = true -> exists pre post, s = pre ++ sub ++ post.
Proof.
  induction s as [|c t IH]; intros H.
  - simpl in H. rewrite orb_false_r in H.
    apply startswith_inv in H as [post H]. exists [], post. exact H.
  - rewrite contains_cons in H. apply orb_true_iff in H as [H|H].
    + apply startswith_inv in H as [post H]. exists [], post. exact H.
    + destruct (IH H) as (pre & post & ->). now exists (c :: pre), post.
Qed.

Lemma contains_rev (sub s : pystr) :
  contains sub s = true -> contains (rev sub) (rev s) = true.
Proof.
  intros H. apply contains_inv in H as (pre & post & ->).
  rewrite !rev_app_distr, <- app_assoc. apply contains_infix.
Qed.

(** White space in front of the text hides no marker. *)
Lemma contains_after_spaces (a : char) (m l x : pystr) :
  isspace a = false -> forallb isspace l = true ->
  contains (a :: m) (l ++ x) = true -> contains (a :: m) x = true.
Proof.
  intros Ha. induction l as [|c l IH]; intros Hl H; [exact H|].
  simpl in Hl. apply andb_true_iff in Hl as [Hc Hl].
  simpl app in H. rewrite contains_cons in H.
  apply orb_true_iff in H as [H|H]; [|now apply IH].
  simpl in H. apply andb_true_iff in H as [H _].
  apply N.eqb_eq in H. congruence.
Qed.

Lemma contains_before_spaces (z : char) (m r x : pystr) :
  isspace z = false -> forallb isspace r = true ->
  contains (m ++ [z]) (x ++ r) = true -> contains (m ++ [z]) x = true.
Proof.
  intros Hz Hr H. apply contains_rev in H.
  rewrite !rev_app_distr in H. simpl in H.
  apply contains_after_spaces in H; [|exact Hz|now rewrite forallb_rev].
  apply contains_rev in H. simpl in H.
  now rewrite !rev_involutive in H.
Qed.

(** Trimming neither hides nor reveals a marker that has no white space
    at its ends. *)
Lemma strip_contains (m s : pystr) :
  solid m -> contains m (strip s) = contains m s.
Proof.
  intros [(a & m1 & E1 & Ha) (m2 & z & E2 & Hz)].
  destruct (contains m s) eqn:E; [|now apply strip_keeps_missing].
  destruct (strip_split s) as (l & r & Es & Hl & Hr).
  rewrite Es in E. rewrite E1 in E.
  apply contains_after_spaces in E; trivial.
  rewrite <- E1, E2 in E. apply contains_before_spaces in E; trivial.
  now rewrite E2.
Qed.

Lemma German_solid : solid German.
Proof.
  split.
  - exists 71%N, (of_string "erman:"). split; reflexivity.
  - exists (of_string "German"), 58%N. split; reflexivity.
Qed.

Lemma English_solid : solid English.
Proof.
  split.
  - exists 69%N, (of_string "nglish:"). split; reflexivity.
  - exists (of_string "English"), 58%N. split; reflexivity.
Qed.

(** X6: when the remote call returns text, [process_chunk] returns that
    text trimmed if it contains both ["German:"] and ["English:"], and the
    error tag followed by the trimmed text otherwise; the trimming has no
    part in the decision. *)
Theorem validation_decides_on_reply
    (client : Client) (chunk : pystr) (n : nat) (response : Response)
    (content : pystr) (rest : list (option pystr)) (t : CostTracker) :
  client n chunk = Returned response ->
  choices response = Some content :: rest ->
  fst (process_chunk chunk client n t)
  = Returned (if contains German content && contains English content
              then strip content
              else error_tag n ++ strip content).
Proof.
  intros Hc Hch. rewrite process_chunk_fst. unfold reply_text.
  rewrite Hc, Hch.
  rewrite (strip_contains German content German_solid),
          (strip_contains English content English_solid).
  destruct (contains German content), (contains English content); reflexivity.
Qed.

Lemma validation_decides_on_reply_witness :
  fst (process_chunk chunk_one translating_client 1 (CostTracker_init 0%Q))
  = Returned (if contains German reply_one && contains English reply_one
              then strip reply_one
              else error_tag 1 ++ strip reply_one).
Proof.
  apply (validation_decides_on_reply translating_client chunk_one 1
           {| usage := Some {| total_tokens := 15; prompt_tokens := 10;
                               completion_tokens := 5 |};
              choices := [Some reply_one] |} reply_one []);
    reflexivity.
Defined.


(** * Further properties of the dispatcher *)

Lemma as_completed_from (pre rest : list pystr) :
  as_completed (pre ++ rest) (seq (S (List.length pre)) (List.length rest))
  = combine (seq (S (List.length pre)) (List.length rest)) rest.
Proof.
  revert pre. induction rest as [|c rest IH]; intros pre; [reflexivity|].
  cbn [List.length seq combine]. unfold as_completed. cbn [flat_map].
  cbn [chunk_at]. rewrite nth_error_app2 by lia. rewrite Nat.sub_diag.
  cbn [nth_error app]. f_equal.
  specialize (IH (pre ++ [c])). rewrite <- app_assoc in IH.
  rewrite length_app, Nat.add_1_r in IH. exact IH.
Qed.

(** Completion in the order of submission yields [enumerate(chunks, 1)]. *)
Lemma as_completed_in_order (chunks : list pystr) :
  as_completed chunks (seq 1 (List.length chunks)) = enumerate1 chunks.
Proof. exact (as_completed_from [] chunks). Qed.

Lemma as_completed_permutation (chunks : list pystr) (completion : list nat) :
  Permutation completion (seq 1 (List.length chunks)) ->
  Permutation (as_completed chunks completion) (enumerate1 chunks).
Proof.
  intros H. rewrite <- as_completed_in_order. unfold as_completed.
  now apply Permutation_flat_map.
Qed.

(** X8: whatever the completion order, the results are those of a run in
    which the chunks complete in the order of submission, rearranged:
    no result is lost, none is duplicated. *)
Theorem results_are_rearranged
    (client : Client) (chunks : list pystr) (completion : list nat)
    (t t' : CostTracker) :
  Permutation completion (seq 1 (List.length chunks)) ->
  Permutation
    (fst (process_chunks_parallel client chunks completion t))
    (fst (process_chunks_parallel client chunks
            (seq 1 (List.length chunks)) t')).
Proof.
  intros H. rewrite !process_chunks_parallel_fst. apply Permutation_map.
  rewrite as_completed_in_order. now apply as_completed_permutation.
Qed.

Lemma results_are_rearranged_witness :
  Permutation
    (fst (process_chunks_parallel failing_client [chunk_one; chunk_two]
            [2; 1]%nat (CostTracker_init 0%Q)))
    (fst (process_chunks_parallel failing_client [chunk_one; chunk_two]
            (seq 1 (List.length [chunk_one; chunk_two])) (CostTracker_init 0%Q))).
Proof.
  apply (results_are_rearranged failing_client [chunk_one; chunk_two]
           [2; 1]%nat (CostTracker_init 0%Q) (CostTracker_init 0%Q)).
  apply perm_swap.
Defined.

Section Accounting.

Variable client : Client.

(** What a unit of work does to the tracker: usage is recorded as soon as
    the call returns, before the reply is looked at. *)
Lemma process_chunk_snd (chunk : pystr) (n : nat) (t : CostTracker) :
  snd (process_chunk chunk client n t)
  = fold_left add_usage (future_usage client (n, chunk)) t.
Proof.
  unfold process_chunk, try_except, process_chunk_body, bind, lift, track,
    first_choice, content_strip, future_usage.
  simpl fst. simpl snd.
  destruct (client n chunk) as [response|e]; simpl; [|reflexivity].
  destruct (choices response) as [|[content|] rest]; simpl; try reflexivity.
  destruct (negb (contains German (strip content))
            || negb (contains English (strip content))); reflexivity.
Qed.

Lemma collect_step_snd (st : list pystr * CostTracker) (future : nat * pystr) :
  snd (collect_step client st future)
  = fold_left add_usage (future_usage client future) (snd st).
Proof.
  destruct st as [results t], future as [i chunk]. unfold collect_step.
  pose proof (process_chunk_snd chunk i t) as H.
  destruct (process_chunk chunk client i t) as [[r|e] t']; exact H.
Qed.

Lemma collect_fold_snd (l : list (nat * pystr)) (st : list pystr * CostTracker) :
  snd (fold_left (collect_step client) l st)
  = fold_left add_usage (flat_map (future_usage client) l) (snd st).
Proof.
  revert st. induction l as [|f l IH]; intros st; simpl; [reflexivity|].
  now rewrite IH, collect_step_snd, fold_left_app.
Qed.

Lemma process_chunks_parallel_snd chunks completion t :
  snd (process_chunks_parallel client chunks completion t)
  = fold_left add_usage
      (flat_map (future_usage client) (as_completed chunks completion)) t.
Proof. unfold process_chunks_parallel. now rewrite collect_fold_snd. Qed.

End Accounting.

(** X9: the totals after a batch do not depend on the order in which the
    chunks complete: the tracker ends as if the usage of every call that
    returned a reply had been recorded in chunk order.  Usage is recorded
    for every reply, also for one that gives an empty or tagged result. *)
Theorem batch_totals_ignore_completion_order
    (client : Client) (chunks : list pystr) (completion : list nat)
    (t : CostTracker) :
  Permutation completion (seq 1 (List.length chunks)) ->
  snd (process_chunks_parallel client chunks completion t)
  = fold_left add_usage
      (flat_map (future_usage client) (enumerate1 chunks)) t
  /\ snd (process_chunks_parallel client chunks completion t)
     = snd (process_chunks_parallel client chunks
              (seq 1 (List.length chunks)) t).
Proof.
  intros H.
  assert (E : snd (process_chunks_parallel client chunks completion t)
              = fold_left add_usage
                  (flat_map (future_usage client) (enumerate1 chunks)) t).
  { rewrite process_chunks_parallel_snd.
    apply add_usage_fold_permutation. apply Permutation_flat_map.
    now apply as_completed_permutation. }
  split; [exact E|]. rewrite E.
  now rewrite process_chunks_parallel_snd, as_completed_in_order.
Qed.

Lemma batch_totals_ignore_completion_order_witness :
  snd (process_chunks_parallel translating_client [chunk_one; chunk_two]
         [2; 1]%nat (CostTracker_init 0%Q))
  = snd (process_chunks_parallel translating_client [chunk_one; chunk_two]
           (seq 1 (List.length [chunk_one; chunk_two])) (CostTracker_init 0%Q)).
Proof.
  apply (batch_totals_ignore_completion_order translating_client
           [chunk_one; chunk_two] [2; 1]%nat (CostTracker_init 0%Q)).
  apply perm_swap.
Defined.

Lemma add_usage_keeps (t : CostTracker) (r : Response) :
  usage_consistent r ->
  start_time (add_usage t r) = start_time t
  /\ (tracker_inv t -> tracker_inv (add_usage t r)).
Proof.
  unfold usage_consistent, tracker_inv, add_usage.
  destruct (usage r) as [u|]; simpl; intros H; split; trivial. lia.
Qed.

Lemma add_usage_fold_keeps (l : list Response) (t : CostTracker) :
  Forall usage_consistent l ->
  start_time (fold_left add_usage l t) = start_time t
  /\ (tracker_inv t -> tracker_inv (fold_left add_usage l t)).
Proof.
  intros H. revert t. induction H as [|r l Hr _ IH]; intros t; simpl.
  - split; trivial.
  - destruct (IH (add_usage t r)) as [IH1 IH2].
    destruct (add_usage_keeps t r Hr) as [H1 H2].
    split; [congruence|auto].
Qed.

(** X10: a whole batch keeps the tracker's invariant
    [total_tokens = total_prompt_tokens + total_completion_tokens] when the
    usage record of every reply adds up, and it never touches the start
    time; this holds for every completion order. *)
Theorem batch_keeps_tracker_invariant
    (client : Client) (chunks : list pystr) (completion : list nat)
    (t : CostTracker) :
  (forall n chunk response,
      client n chunk = Returned response -> usage_consistent response) ->
  start_time (snd (process_chunks_parallel client chunks completion t))
  = start_time t
  /\ (tracker_inv t ->
      tracker_inv (snd (process_chunks_parallel client chunks completion t))).
Proof.
  intros H. rewrite process_chunks_parallel_snd.
  apply add_usage_fold_keeps. apply Forall_forall. intros r Hr.
  apply in_flat_map in Hr as ([n chunk] & _ & Hr).
  unfold future_usage in Hr. simpl in Hr.
  destruct (client n chunk) as [response|e] eqn:E; [|destruct Hr].
  destruct Hr as [<-|[]]. now apply (H n chunk).
Qed.

Lemma batch_keeps_tracker_invariant_witness :
  tracker_inv (CostTracker_init 0%Q)
  /\ tracker_inv
       (snd (process_chunks_parallel translating_client [chunk_one; chunk_two]
               [2; 1]%nat (CostTracker_init 0%Q))).
Proof.
  split; [reflexivity|].
  apply (batch_keeps_tracker_invariant translating_client
           [chunk_one; chunk_two] [2; 1]%nat (CostTracker_init 0%Q)).
  - intros n chunk response H. inversion H. reflexivity.
  - reflexivity.
Defined.

(** * Further properties of the aggregation and of the whole run *)

Lemma join_nil (sep : pystr) (l : list pystr) :
  Forall (fun r => truthy r = true) l -> join sep l = [] -> l = [].
Proof.
  intros H E. destruct l as [|x rest]; [reflexivity|].
  inversion H as [|? ? Hx _]; subst.
  destruct x as [|c x]; [discriminate|].
  destruct rest; discriminate.
Qed.

Lemma filter_truthy_nil (results : list pystr) :
  filter truthy results = [] <-> Forall (fun r => r = []) results.
Proof.
  induction results as [|[|c r] rest IH]; simpl.
  - split; constructor.
  - rewrite IH. split; intros H; [now constructor|now inversion H].
  - split; [discriminate|]. intros H. inversion H. discriminate.
Qed.

Lemma aggregate_nil (results : list pystr) :
  aggregate results = [] <-> Forall (fun r => r = []) results.
Proof.
  rewrite <- filter_truthy_nil. unfold aggregate. split.
  - apply join_nil. apply Forall_forall. intros r Hr.
    now apply filter_In in Hr.
  - now intros ->.
Qed.

(** X11: the aggregated output is empty exactly when every result is
    empty. *)
Theorem aggregate_empty_iff (results : list pystr) :
  aggregate results = [] <-> Forall (fun r => r = []) results.
Proof. apply aggregate_nil. Qed.

Lemma filter_truthy_nonempty (results : list pystr) :
  Exists (fun r => truthy r = true) results -> filter truthy results <> [].
Proof.
  intros Hex E. apply Exists_exists in Hex as (r & Hin & Hr).
  assert (H : In r (filter truthy results)) by (apply filter_In; auto).
  rewrite E in H. destruct H.
Qed.

(** X12: aggregating two batches of results one after the other gives the
    two aggregated outputs with one separator between them, when each
    batch has a non-empty result. *)
Theorem aggregate_app (results1 results2 : list pystr) :
  Exists (fun r => truthy r = true) results1 ->
  Exists (fun r => truthy r = true) results2 ->
  aggregate (results1 ++ results2)
  = aggregate results1 ++ separator ++ aggregate results2.
Proof.
  intros H1 H2. unfold aggregate. rewrite filter_app.
  apply join_app; now apply filter_truthy_nonempty.
Qed.

Lemma aggregate_app_witness :
  aggregate ([reply_one; []] ++ [[]; reply_two])
  = aggregate [reply_one; []] ++ separator ++ aggregate [[]; reply_two].
Proof.
  apply (aggregate_app [reply_one; []] [[]; reply_two]).
  - apply Exists_cons_hd. reflexivity.
  - apply Exists_cons_tl, Exists_cons_hd. reflexivity.
Defined.


Lemma reformat_text_snd client text completion t :
  snd (reformat_text client text completion t)
  = snd (process_chunks_parallel client
           (split_into_contextual_chunks text default_max_chunk_size)
           completion t).
Proof.
  unfold reformat_text.
  now destruct (process_chunks_parallel client _ completion t).
Qed.

Lemma as_completed_no_chunks (completion : list nat) :
  as_completed [] completion = [].
Proof.
  induction completion as [|i l IH]; [reflexivity|].
  unfold as_completed in *. simpl. rewrite IH.
  destruct i as [|[|k]]; reflexivity.
Qed.

Lemma short_text_split_nil (text : pystr) (max_chunk_size : Z) :
  len text < 50 -> split_into_contextual_chunks text max_chunk_size = [].
Proof.
  intros Hlt. unfold split_into_contextual_chunks. apply filter_none.
  eapply Forall_impl; [|apply unfiltered_chunks_bound]. simpl. intros c Hc.
  rewrite Z.gtb_ltb. apply Z.ltb_ge. lia.
Qed.

(** X13: for a text of fewer than 50 characters the run calls the remote
    service for nothing: the output is empty and the tracker is left as it
    was, whatever the service and the completion order. *)
Theorem reformat_short_text
    (client : Client) (text : pystr) (completion : list nat)
    (t : CostTracker) :
  len text < 50 ->
  reformat_text client text completion t = ([], t).
Proof.
  intros H. unfold reformat_text, process_chunks_parallel.
  rewrite short_text_split_nil by exact H.
  now rewrite as_completed_no_chunks.
Qed.

Lemma reformat_short_text_witness :
  reformat_text translating_client chunk_one [1%nat] (CostTracker_init 0%Q)
  = ([], CostTracker_init 0%Q).
Proof.
  apply (reformat_short_text translating_client chunk_one [1%nat]
           (CostTracker_init 0%Q)).
  reflexivity.
Defined.

(** * Further properties of the report *)

Lemma of_string_String (a : ascii) (s : string) :
  of_string (String a s) = N_of_ascii a :: of_string s.
Proof. reflexivity. Qed.

Lemma uint_digits (d : Decimal.uint) :
  Forall (fun c => is_digit c = true) (of_string (NilEmpty.string_of_uint d)).
Proof.
  induction d; simpl NilEmpty.string_of_uint;
    [constructor | rewrite of_string_String; constructor;
                   [reflexivity|assumption] ..].
Qed.

Lemma str_of_Z_abs_digits (n : Z) :
  Forall (fun c => is_digit c = true) (str_of_Z (Z.abs n)).
Proof.
  unfold str_of_Z.
  assert (H : forall d, Forall (fun c => is_digit c = true)
                          (of_string (NilZero.string_of_uint d))).
  { intros d. destruct d; try apply uint_digits.
    repeat constructor. }
  destruct n as [|p|p]; [repeat constructor | |]; exact (H (Pos.to_uint p)).
Qed.

Lemma str_of_Z_sign (n : Z) :
  str_of_Z n = (if n <? 0 then [MINUS] else []) ++ str_of_Z (Z.abs n).
Proof. destruct n; reflexivity. Qed.

Lemma digit_not_comma (c : char) : is_digit c = true -> not_comma c = true.
Proof.
  unfold is_digit, not_comma, COMMA. intros H.
  apply andb_true_iff in H as [H _]. apply N.leb_le in H.
  destruct (N.eqb_spec c 44); [lia|reflexivity].
Qed.

Lemma group3_filter (l : pystr) (k : nat) :
  Forall (fun c => not_comma c = true) l ->
  filter not_comma (group3 l k) = l.
Proof.
  intros H. revert k. induction H as [|d l Hd _ IH]; intros k; [reflexivity|].
  destruct k as [|k]; simpl; rewrite Hd, IH; reflexivity.
Qed.

Lemma group3_length (l : pystr) (k : nat) :
  List.length (group3 l k)
  = (List.length l + (List.length l + 2 - k) / 3)%nat.
Proof.
  revert k. induction l as [|d l IH]; intros k.
  - simpl. destruct k as [|[|[|k]]]; reflexivity.
  - destruct k as [|k]; simpl group3; simpl List.length; rewrite IH.
    + replace (S (List.length l) + 2 - 0)%nat
        with (List.length l + 1 * 3)%nat by lia.
      rewrite Nat.div_add by discriminate.
      replace (List.length l + 2 - 2)%nat with (List.length l) by lia. lia.
    + replace (S (List.length l) + 2 - S k)%nat
        with (List.length l + 2 - k)%nat by lia. lia.
Qed.

(** X15: a token count is shown in the report with its own decimal
    digits, in order: taking the commas out of the formatted count gives
    [str] of the count back; and for a count of [L] digits that is not
    negative, exactly [(L - 1) / 3] commas are put in. *)
Theorem format_comma_keeps_digits (n : Z) :
  filter not_comma (format_comma n) = str_of_Z n
  /\ (0 <= n ->
      List.length (format_comma n)
      = (List.length (str_of_Z n) + (List.length (str_of_Z n) - 1) / 3)%nat).
Proof.
  split.
  - unfold format_comma. rewrite filter_app, filter_rev, group3_filter.
    + rewrite rev_involutive, (str_of_Z_sign n).
      destruct (n <? 0); reflexivity.
    + apply Forall_rev. eapply Forall_impl; [|apply str_of_Z_abs_digits].
      apply digit_not_comma.
  - intros H. unfold format_comma.
    assert (E : (n <? 0) = false) by (apply Z.ltb_ge; lia).
    rewrite E, Z.abs_eq by exact H. simpl app.
    rewrite length_rev, group3_length, length_rev. f_equal. f_equal. lia.
Qed.

Lemma format_comma_keeps_digits_witness :
  List.length (format_comma 1234567)
  = (List.length (str_of_Z 1234567)
     + (List.length (str_of_Z 1234567) - 1) / 3)%nat.
Proof. apply (format_comma_keeps_digits 1234567). discriminate. Defined.












(** * Exactness of the float operations behind the elapsed time *)







Section DivmodExact.

Variable x : Q.
Variable w : positive.
Variable k : Z.
Hypothesis x_nonneg : (0 <= x)%Q.
Hypothesis k_floor : k = Qfloor (x / (Zpos w # 1)).

Local Abbreviation md := (Qred (x - (Zpos w # 1) * inject_Z k)).




Hypothesis in_range : Zpos w * k < 2 ^ 53.


End DivmodExact.




















(** * The chunker and the standard output *)

Lemma utf8_strict_app (a b : pystr) :
  utf8_strict (a ++ b) = utf8_strict a && utf8_strict b.
Proof. apply forallb_app. Qed.

Lemma utf8_strict_Forall (s : pystr) :
  utf8_strict s = true <-> Forall (fun c => is_surrogate c = false) s.
Proof.
  unfold utf8_strict. rewrite forallb_forall, Forall_forall.
  split; intros H c Hc; specialize (H c Hc);
    destruct (is_surrogate c); auto; discriminate.
Qed.

Lemma digit_not_surrogate (c : char) :
  is_digit c = true -> is_surrogate c = false.
Proof.
  unfold is_digit, is_surrogate. intros H.
  apply andb_true_iff in H as [_ H]. apply N.leb_le in H.
  apply andb_false_iff. left. apply N.leb_gt. lia.
Qed.

(** The line that tells the number of chunks is always encoded. *)
Lemma created_message_encodes (n : nat) :
  utf8_strict (of_string "Created " ++ str_of_Z (Z.of_nat n)
               ++ of_string " chunks") = true.
Proof.
  rewrite !utf8_strict_app. apply andb_true_iff. split; [reflexivity|].
  apply andb_true_iff. split; [|reflexivity].
  apply utf8_strict_Forall. rewrite <- (Z.abs_eq (Z.of_nat n)) by lia.
  eapply Forall_impl; [|apply str_of_Z_abs_digits].
  apply digit_not_surrogate.
Qed.

Lemma sentences_Forall (P : char -> Prop) (text : pystr) :
  P SPACE -> Forall P text -> Forall (Forall P) (sentences_of text).
Proof.
  intros Hsp Ht. apply Forall_forall. intros f Hf.
  destruct (join_keeps [DOT; SPACE] f _ Hf) as (pre & post & E).
  unfold sentences_of in E. rewrite join_split2 in E.
  assert (Hr : Forall P (replace LF SPACE text)).
  { unfold replace. apply Forall_map. eapply Forall_impl; [|exact Ht].
    intros c Hc. simpl. destruct (c =? LF)%N; assumption. }
  rewrite E in Hr. apply Forall_app in Hr as [_ Hr].
  now apply Forall_app in Hr as [Hr _].
Qed.

(** The chunks are made of characters of the text, periods and spaces. *)
Lemma chunks_Forall (P : char -> Prop) (text : pystr) (max_chunk_size : Z) :
  P DOT -> P SPACE -> Forall P text ->
  Forall (Forall P) (split_into_contextual_chunks text max_chunk_size).
Proof.
  intros Hd Hs Ht. unfold split_into_contextual_chunks.
  apply Forall_forall. intros c Hc. apply filter_In in Hc as [Hc _].
  revert c Hc. apply Forall_forall. apply chars_inv_flush.
  apply chars_inv_fold; trivial.
  - now apply sentences_Forall.
  - split; constructor.
Qed.

Lemma run_with_first (text : pystr) (max_chunk_size : Z)
    (first : pystr) (rest : list pystr) :
  split_into_contextual_chunks text max_chunk_size = first :: rest ->
  split_into_contextual_chunks_run utf8_strict text max_chunk_size
  = if utf8_strict (firstn 100 first) then Returned (first :: rest)
    else Raised UnicodeEncodeError.
Proof.
  intros E. unfold split_into_contextual_chunks_run, print.
  rewrite created_message_encodes, E.
  rewrite !utf8_strict_app.
  change (utf8_strict (of_string "First chunk sample: ")) with true.
  change (utf8_strict (of_string "...")) with true.
  rewrite andb_true_r. cbn [andb].
  destruct (utf8_strict (firstn 100 first)); reflexivity.
Qed.

(** C6 fails as stated: on a text that begins with a lone surrogate the
    function raises [UnicodeEncodeError] when it prints the sample of the
    first chunk, and returns nothing. *)
Lemma chunker_print_counterexample :
  split_into_contextual_chunks_run utf8_strict text_with_surrogate
    default_max_chunk_size
  = Raised UnicodeEncodeError.
Proof. vm_compute. reflexivity. Qed.

(** C6, amended: with a standard output in UTF-8,
    [split_into_contextual_chunks] returns its chunks on every text that
    holds no lone surrogate (every text decoded from a UTF-8 file is
    one); more precisely it returns exactly when there is no chunk or the
    first 100 characters of the first chunk hold no lone surrogate, and
    raises [UnicodeEncodeError] otherwise; on the empty text it returns
    the empty sequence of chunks. *)
Theorem split_returns_when_printable :
  (forall text max_chunk_size,
      utf8_strict text = true ->
      split_into_contextual_chunks_run utf8_strict text max_chunk_size
      = Returned (split_into_contextual_chunks text max_chunk_size))
  /\ (forall text max_chunk_size first rest,
         split_into_contextual_chunks text max_chunk_size = first :: rest ->
         (utf8_strict (firstn 100 first) = true ->
          split_into_contextual_chunks_run utf8_strict text max_chunk_size
          = Returned (first :: rest))
         /\ (utf8_strict (firstn 100 first) = false ->
             split_into_contextual_chunks_run utf8_strict text max_chunk_size
             = Raised UnicodeEncodeError))
  /\ (forall text max_chunk_size,
         split_into_contextual_chunks text max_chunk_size = [] ->
         split_into_contextual_chunks_run utf8_strict text max_chunk_size
         = Returned [])
  /\ (forall max_chunk_size,
         split_into_contextual_chunks_run utf8_strict [] max_chunk_size
         = Returned []).
Proof.
  assert (Hnil : forall text max_chunk_size,
             split_into_contextual_chunks text max_chunk_size = [] ->
             split_into_contextual_chunks_run utf8_strict text max_chunk_size
             = Returned []).
  { intros text m E. unfold split_into_contextual_chunks_run, print.
    now rewrite created_message_encodes, E. }
  split; [|split; [|split]].
  - intros text m Ht.
    destruct (split_into_contextual_chunks text m) as [|first rest] eqn:E;
      [now apply Hnil|].
    rewrite (run_with_first text m first rest E).
    assert (Hf : utf8_strict (firstn 100 first) = true).
    { apply utf8_strict_Forall.
      assert (Hc : Forall (Forall (fun c => is_surrogate c = false))
                     (split_into_contextual_chunks text m)).
      { apply chunks_Forall; try reflexivity. now apply utf8_strict_Forall. }
      rewrite E in Hc. inversion Hc as [|? ? Hfirst _]; subst.
      rewrite <- (firstn_skipn 100 first) in Hfirst.
      now apply Forall_app in Hfirst as [Hfirst _]. }
    now rewrite Hf.
  - intros text m first rest E. rewrite (run_with_first text m first rest E).
    split; intros ->; reflexivity.
  - exact Hnil.
  - intros m. apply Hnil. unfold split_into_contextual_chunks, sentences_of.
    simpl. rewrite andb_false_r. reflexivity.
Qed.

Lemma split_returns_when_printable_witness :
  utf8_strict two_sentences = true
  /\ split_into_contextual_chunks_run utf8_strict two_sentences 400
     = Returned (split_into_contextual_chunks two_sentences 400).
Proof.
  split; [vm_compute; reflexivity|].
  apply (proj1 split_returns_when_printable two_sentences 400).
  vm_compute. reflexivity.
Defined.

(** * The slots of the dispatcher *)






(** * Aggregation, in order *)

Lemma existsb_filter_truthy (results : list pystr) :
  existsb truthy results
  = match filter truthy results with [] => false | _ :: _ => true end.
Proof.
  induction results as [|[|c r] rest IH]; simpl; trivial.
Qed.

Lemma existsb_truthy_Exists (results : list pystr) :
  Exists (fun r => truthy r = true) results -> existsb truthy results = true.
Proof.
  intros H. apply existsb_exists. apply Exists_exists in H. exact H.
Qed.

(** C4, amended: aggregation drops exactly the empty results and joins the
    others, in their order, with the separator: an empty result in front
    changes nothing, and a non-empty result in front comes first in the
    output, followed by a separator and the aggregation of the rest when
    the rest has a non-empty result.  When some result is not empty, the
    output is as long as all the results together plus one separator less
    than there are non-empty results; and when moreover no result contains
    ["---"], the output contains exactly (count of non-empty results - 1)
    occurrences of the separator. *)
Theorem separator_count (results : list pystr) :
  aggregate results = join separator (filter truthy results)
  /\ (forall r, In r (filter truthy results) <-> In r results /\ r <> [])
  /\ aggregate ([] :: results) = aggregate results
  /\ (forall r,
         r <> [] ->
         aggregate (r :: results)
         = if existsb truthy results
           then r ++ separator ++ aggregate results
           else r)
  /\ (Exists (fun r => truthy r = true) results ->
      len (aggregate results)
      = total_len results
        + len separator * (Z.of_nat (List.length (filter truthy results)) - 1)
      /\ (Forall (fun r => contains dashes r = false) results ->
          Z.of_nat (count separator (aggregate results))
          = Z.of_nat (List.length (filter truthy results)) - 1)).
Proof.
  split; [reflexivity|]. split; [|split; [reflexivity|split]].
  - intros r. rewrite filter_In. destruct r; simpl; intuition congruence.
  - intros r Hr. destruct r as [|c r]; [congruence|].
    rewrite existsb_filter_truthy. unfold aggregate. simpl filter.
    destruct (filter truthy results); reflexivity.
  - intros Hex. pose proof (filter_truthy_nonempty results Hex) as Hne. split.
    + unfold aggregate. rewrite len_join by assumption.
      now rewrite total_len_filter.
    + intros Hd. unfold aggregate.
      assert (Hd' : Forall (fun r => contains dashes r = false)
                           (filter truthy results)).
      { apply Forall_forall. intros r Hr. apply filter_In in Hr as [Hr _].
        revert r Hr. now apply Forall_forall. }
      pose proof (count_join _ Hd' Hne). lia.
Qed.

Lemma separator_count_witness :
  Exists (fun r => truthy r = true) [reply_one; []; reply_two]
  /\ Forall (fun r => contains dashes r = false) [reply_one; []; reply_two]
  /\ aggregate [reply_one; []; reply_two]
     = reply_one ++ separator ++ reply_two
  /\ Z.of_nat (count separator (aggregate [reply_one; []; reply_two]))
     = Z.of_nat (List.length (filter truthy [reply_one; []; reply_two])) - 1.
Proof.
  assert (Hex : Exists (fun r => truthy r = true) [reply_one; []; reply_two])
    by (apply Exists_cons_hd; reflexivity).
  assert (Hd : Forall (fun r => contains dashes r = false)
                      [reply_one; []; reply_two])
    by (repeat constructor).
  destruct (separator_count [reply_one; []; reply_two])
    as (_ & _ & _ & _ & Hcount).
  destruct (separator_count [[]; reply_two]) as (_ & _ & _ & Hfront & _).
  split; [exact Hex|]. split; [exact Hd|]. split.
  - exact (Hfront reply_one ltac:(discriminate)).
  - exact (proj2 (Hcount Hex) Hd).
Defined.

(** * The output of a run *)


